(** * torchvision.prototype.transforms._color : a shallow embedding

    The module under study is a policy layer: it validates user ranges
    ([ColorJitter._check_input]), samples parameters, and dispatches to pixel
    kernels that live elsewhere.  Python's [float] is IEEE-754 binary64, which
    is exactly Rocq's primitive [float]; the embedding computes with it, so
    rounding, signed zeros, infinities and NaN behave as they do in CPython. *)

From Stdlib Require Import ZArith List Bool String Lia Floats Permutation.
Import ListNotations.

Set Warnings "-inexact-float,-register-all".

(** ** Python values reaching [_check_input] *)

Module Py.

(** The objects a caller can pass as [value].  The annotation is
    [Optional[Union[float, Sequence[float]]]]; strings and integers are
    listed because the function inspects the run-time type. *)
Inductive value : Type :=
| VNone
| VFloat (v : float)
| VSeq (xs : list float)       (* a list or tuple of floats *)
| VStr (s : string)            (* a [str]: also a [collections.abc.Sequence] *)
| VInt (z : Z)                 (* an [int]: not an instance of [float] *)
| VObject.                     (* any other object that is not a Sequence *)

Inductive exn : Type :=
| ValueError_non_negative (name : string)
    (* "If {name} is a single number, it must be non negative." *)
| ValueError_between (name : string) (bound : float * float)
    (* "{name} values should be between {bound}" *)
| TypeError_shape (name : string)
    (* "{name} should be a single number or a sequence with length 2." *)
| TypeError_unorderable
    (* "'<=' not supported between instances of 'float' and 'str'" *)
| TypeError_no_image
    (* raised by [query_image] on a sample that holds no image *)
| IndexError.
    (* an index past the end of the indexed dimension *)

Inductive result (A : Type) : Type :=
| Ok (a : A)
| Raise (e : exn).
Arguments Ok {A} a.
Arguments Raise {A} e.

Definition is_ValueError (e : exn) : bool :=
  match e with
  | ValueError_non_negative _ | ValueError_between _ _ => true
  | _ => false
  end.

Definition is_TypeError (e : exn) : bool :=
  match e with
  | TypeError_shape _ | TypeError_unorderable | TypeError_no_image => true
  | _ => false
  end.

Definition raises {A} (r : result A) : bool :=
  match r with Raise _ => true | Ok _ => false end.

(** [max(a, b)] of the builtins: the first argument is kept unless the
    second compares strictly greater. *)
Definition max (a b : float) : float :=
  if PrimFloat.ltb a b then b else a.

(** [isinstance(value, collections.abc.Sequence) and len(value) == 2] *)
Definition is_sequence_of_len_2 (v : value) : bool :=
  match v with
  | VSeq xs => Nat.eqb (List.length xs) 2
  | VStr s => Nat.eqb (String.length s) 2
  | _ => false
  end.

End Py.
Import Py.

Definition bind_result {A B} (r : result A) (k : A -> result B) : result B :=
  match r with
  | Ok a => k a
  | Raise e => Raise e
  end.

Local Open Scope float_scope.

(** ** Tensors and image-like inputs *)

(** A tensor of shape [(..., C, H, W)]: the leading dimensions are a tree of
    nested lists, each leaf an image given as its list of channel planes. *)
Inductive batch (A : Type) : Type :=
| One (a : A)
| Many (l : list (batch A)).
Arguments One {A} a.
Arguments Many {A} l.

Fixpoint batch_map {A B} (f : A -> B) (t : batch A) : batch B :=
  match t with
  | One a => One (f a)
  | Many l => Many (map (batch_map f) l)
  end.

Fixpoint batch_all {A} (P : A -> bool) (t : batch A) : bool :=
  match t with
  | One a => P a
  | Many l => forallb (batch_all P) l
  end.

(** All results of a fallible function over a list, or the first failure. *)
Fixpoint traverse {A B} (f : A -> option B) (l : list A) : option (list B) :=
  match l with
  | [] => Some []
  | a :: l' =>
      match f a, traverse f l' with
      | Some b, Some bs => Some (b :: bs)
      | _, _ => None
      end
  end.

Fixpoint batch_traverse {A B} (f : A -> option B) (t : batch A)
    : option (batch B) :=
  match t with
  | One a => option_map One (f a)
  | Many l => option_map Many (traverse (batch_traverse f) l)
  end.

(** [features.ColorSpace] *)
Inductive ColorSpace : Type := OTHER | GRAY | GRAY_ALPHA | RGB | RGB_ALPHA.

(** The types the module does not define: tensor elements, PIL images, and
    every object that is not image-like (bounding boxes, labels, ...), with
    the state of torch's global random generator. *)
Class Carriers : Type := {
  scalar : Type;
  pil : Type;
  other : Type;
  rng : Type
}.

Section Inputs.
Context {C : Carriers}.

Definition plane : Type := list (list scalar).     (* H x W *)
Definition chw : Type := list plane.               (* C x H x W *)
Definition tensor : Type := batch chw.             (* ... x C x H x W *)

(** [features.Image]: a tensor subclass carrying a colour space. *)
Record Image : Type := mkImage {
  data : tensor;
  color_space : ColorSpace
}.

Inductive input : Type :=
| ITensor (t : tensor)        (* a plain [torch.Tensor] *)
| IImage (img : Image)        (* [features.Image] *)
| IPIL (p : pil)              (* [PIL.Image.Image] *)
| IOther (o : other).         (* anything else, e.g. [features.BoundingBox] *)

(** [image[..., permutation, :, :]] on one image: channel [k] of the result
    is channel [permutation[k]] of the argument; an index past the last
    channel is an [IndexError]. *)
Definition index_channels (permutation : list nat) (im : chw) : option chw :=
  traverse (fun i => nth_error im i) permutation.

Definition index_select (permutation : list nat) (t : tensor) : option tensor :=
  batch_traverse (index_channels permutation) t.

End Inputs.

(** ** External collaborators *)

(** Everything the module imports and calls: the pixel kernels of
    [torchvision.prototype.transforms.functional] ([F]), the PIL conversions
    of [torchvision.transforms.functional] ([_F]), the helpers of [._utils]
    and torch's random generator.  They are parameters of the embedding. *)
Class Kernels {C : Carriers} : Type := {
  adjust_brightness : input -> float -> input;
  adjust_contrast : input -> float -> input;
  adjust_saturation : input -> float -> input;
  adjust_hue : input -> float -> input;
  equalize : input -> input;
  pil_to_tensor : pil -> tensor;
  to_pil_image : tensor -> pil;
  (* [get_image_dimensions(query_image(sample))[0]] *)
  num_channels : input -> result nat;
  (* [torch.randperm(n)] *)
  randperm : nat -> rng -> list nat * rng;
  (* [float(torch.distributions.Uniform(left, right).sample())] *)
  uniform_sample : float -> float -> rng -> float * rng;
  (* one draw of [torch.rand]: a float of [[0, 1)] *)
  rand : rng -> float * rng
}.

Section Monad.
Context {C : Carriers}.

(** *** Computations that draw random numbers and may raise *)

Definition M (A : Type) : Type := rng -> result (A * rng).

Definition ret {A} (a : A) : M A := fun g => Ok (a, g).

Definition bind {A B} (m : M A) (k : A -> M B) : M B :=
  fun g =>
    match m g with
    | Ok (a, g') => k a g'
    | Raise e => Raise e
    end.

Definition draw {A} (f : rng -> A * rng) : M A := fun g => Ok (f g).

Definition lift {A} (r : result A) : M A :=
  fun g =>
    match r with
    | Ok a => Ok (a, g)
    | Raise e => Raise e
    end.

End Monad.

Notation "x <- m ;; k" := (bind m (fun x => k))
  (at level 61, m at next level, right associativity).

Section Draws.
Context {C : Carriers} {K : Kernels}.

(** One entry of [torch.rand(n) < p]: a Bernoulli draw of parameter [p]. *)
Definition bernoulli (p : float) : M bool :=
  u <- draw rand ;; ret (u <? p).

End Draws.

(** ** class [ColorJitter] *)

Module ColorJitter.

Definition range : Type := float * float.

(** Line 48: the chained comparison
    [bound[0] <= value[0] <= value[1] <= bound[1]]. *)
Definition within_bound (bound : float * float) (lo hi : float) : bool :=
  (fst bound <=? lo) && (lo <=? hi) && (hi <=? snd bound).

(** Line 53: the chained comparison [value[0] == value[1] == center]. *)
Definition collapses (center lo hi : float) : bool :=
  (lo =? hi) && (hi =? center).

(** Line 53: [None if ... else (float(value[0]), float(value[1]))]; both
    entries are floats already, and [float] of a float is that float. *)
Definition finish (center lo hi : float) : result (option range) :=
  Ok (if collapses center lo hi then None else Some (lo, hi)).

(** Lines 30-53.  [center] and [bound] are floats: the literal [0] of the
    default bound and of hue's centre is an [int], which Python compares and
    subtracts by value, as the float [0.0]. *)
Definition _check_input (value : Py.value) (name : string) (center : float)
    (bound : float * float) (clip_first_on_zero : bool)
    : result (option range) :=
  match value with
  | VNone => Ok None
  | VFloat v =>
      if v <? 0 then Raise (ValueError_non_negative name)
      else
        let lo := center - v in
        let hi := center + v in
        let lo := if clip_first_on_zero then Py.max lo 0 else lo in
        finish center lo hi
  | VSeq [lo; hi] =>
      if negb (within_bound bound lo hi)
      then Raise (ValueError_between name bound)
      else finish center lo hi
  | VStr (String _ (String _ EmptyString)) =>
      (* [bound[0] <= value[0]] compares a number with a one-character str *)
      Raise TypeError_unorderable
  | _ => Raise (TypeError_shape name)
  end.

(** The defaults of the signature: [center = 1.0], [bound = (0, inf)],
    [clip_first_on_zero = True]. *)
Definition default_center : float := 1.
Definition default_bound : float * float := (0, infinity).

Definition check_input_default (value : Py.value) (name : string)
    : result (option range) :=
  _check_input value name default_center default_bound true.

(** The attributes set by [__init__]. *)
Record t : Type := mk {
  brightness : option range;
  contrast : option range;
  saturation : option range;
  hue : option range
}.

(** Lines 17-28: the four ranges are validated in this order; the first
    failure aborts construction.  Hue is centred on 0, bounded by
    [(-0.5, 0.5)] and not clipped. *)
Definition __init__ (brightness contrast saturation hue : Py.value)
    : result t :=
  bind_result (check_input_default brightness "brightness") (fun b =>
  bind_result (check_input_default contrast "contrast") (fun c =>
  bind_result (check_input_default saturation "saturation") (fun s =>
  bind_result (_check_input hue "hue" 0 (-0.5, 0.5) false) (fun h =>
  Ok (mk b c s h))))).

(** The dictionary built by [_get_params]. *)
Record Params : Type := mkParams {
  fn_idx : list nat;
  brightness_factor : option float;
  contrast_factor : option float;
  saturation_factor : option float;
  hue_factor : option float
}.

Section Methods.
Context {C : Carriers} {K : Kernels}.

(** Lines 55-57. *)
Definition _generate_value (lo hi : float) : M float :=
  draw (uniform_sample lo hi).

(** Lines 62-65: [None if r is None else self._generate_value(r[0], r[1])]. *)
Definition sample_factor (r : option range) : M (option float) :=
  match r with
  | None => ret None
  | Some (lo, hi) => v <- _generate_value lo hi ;; ret (Some v)
  end.

(** Lines 59-67. *)
Definition _get_params (self : t) (sample : input) : M Params :=
  fn_idx <- draw (randperm 4) ;;
  b <- sample_factor (brightness self) ;;
  c <- sample_factor (contrast self) ;;
  s <- sample_factor (saturation self) ;;
  h <- sample_factor (hue self) ;;
  ret (mkParams fn_idx b c s h).

(** Lines 76-83: the body of the loop, one [if]/[elif] chain. *)
Definition jitter_step (params : Params) (output : input) (fn_id : nat)
    : input :=
  match Nat.eqb fn_id 0, brightness_factor params with
  | true, Some f => adjust_brightness output f
  | _, _ =>
  match Nat.eqb fn_id 1, contrast_factor params with
  | true, Some f => adjust_contrast output f
  | _, _ =>
  match Nat.eqb fn_id 2, saturation_factor params with
  | true, Some f => adjust_saturation output f
  | _, _ =>
  match Nat.eqb fn_id 3, hue_factor params with
  | true, Some f => adjust_hue output f
  | _, _ => output
  end end end end.

(** Lines 69-84. *)
Definition _transform (inpt : input) (params : Params) : input :=
  fold_left (jitter_step params) (fn_idx params) inpt.

(** Modelled from the spec: [Transform.forward] of the base class (module
    [._transform], not among the sources) on a single input: "sample
    parameters, then dispatch" (sections 4.3 and 6). *)
Definition forward (self : t) (inpt : input) : M input :=
  params <- _get_params self inpt ;;
  ret (_transform inpt params).

End Methods.

End ColorJitter.

(** ** class [_RandomChannelShuffle] *)

Module _RandomChannelShuffle.

Section Methods.
Context {C : Carriers} {K : Kernels}.

(** Modelled from the spec: [is_simple_tensor] of [._utils] (not among the
    sources): a dense-array image, that is a tensor that is no feature. *)
Definition is_simple_tensor (inpt : input) : bool :=
  match inpt with ITensor _ => true | _ => false end.

(** [isinstance(inpt, features.Image)] *)
Definition isinstance_Image (inpt : input) : bool :=
  match inpt with IImage _ => true | _ => false end.

(** [isinstance(inpt, PIL.Image.Image)] *)
Definition isinstance_PIL (inpt : input) : bool :=
  match inpt with IPIL _ => true | _ => false end.

(** [features.Image.new_like(inpt, output, color_space=...)] *)
Definition new_like (like : Image) (output : tensor) (cs : ColorSpace)
    : Image :=
  mkImage output cs.

(** Lines 88-91. *)
Definition _get_params (sample : input) : M (list nat) :=
  n <- lift (num_channels sample) ;;
  draw (randperm n).

(** Line 101: [image[..., params["permutation"], :, :]]. *)
Definition index_or_raise (permutation : list nat) (image : tensor)
    : result tensor :=
  match index_select permutation image with
  | Some output => Ok output
  | None => Raise IndexError
  end.

(** Lines 93-108. *)
Definition _transform (inpt : input) (permutation : list nat) : result input :=
  if negb (isinstance_Image inpt || isinstance_PIL inpt || is_simple_tensor inpt)
  then Ok inpt
  else
    match inpt with
    | ITensor image =>
        bind_result (index_or_raise permutation image) (fun output =>
        Ok (ITensor output))
    | IImage img =>
        bind_result (index_or_raise permutation (data img)) (fun output =>
        Ok (IImage (new_like img output OTHER)))
    | IPIL p =>
        bind_result (index_or_raise permutation (pil_to_tensor p)) (fun output =>
        Ok (IPIL (to_pil_image output)))
    | IOther _ => Ok inpt
    end.

(** Modelled from the spec: [Transform.forward] on a single input. *)
Definition forward (inpt : input) : M input :=
  permutation <- _get_params inpt ;;
  lift (_transform inpt permutation).

End Methods.

End _RandomChannelShuffle.

(** ** class [RandomPhotometricDistort] *)

Module RandomPhotometricDistort.

(** The attributes set by [__init__]; [_channel_shuffle] holds no
    configuration. *)
Record t : Type := mk {
  _brightness : ColorJitter.t;
  _contrast : ColorJitter.t;
  _hue : ColorJitter.t;
  _saturation : ColorJitter.t;
  p : float
}.

Definition pair_value (r : float * float) : Py.value := VSeq [fst r; snd r].

(** Lines 112-126; the defaults are [(0.5, 1.5)], [(0.5, 1.5)],
    [(-0.05, 0.05)], [(0.875, 1.125)] and [p = 0.5]. *)
Definition __init__ (contrast saturation hue brightness : float * float)
    (p : float) : result t :=
  let none := VNone in
  bind_result
    (ColorJitter.__init__ (pair_value brightness) none none none) (fun b =>
  bind_result
    (ColorJitter.__init__ none (pair_value contrast) none none) (fun c =>
  bind_result
    (ColorJitter.__init__ none none none (pair_value hue)) (fun h =>
  bind_result
    (ColorJitter.__init__ none none (pair_value saturation) none) (fun s =>
  Ok (mk b c h s p))))).

(** The dictionary built by [_get_params]: six gates, in the order of the
    list of line 131, and the coin [contrast_before]. *)
Record Params : Type := mkParams {
  brightness : bool;
  contrast1 : bool;
  saturation : bool;
  hue : bool;
  contrast2 : bool;
  channel_shuffle : bool;
  contrast_before : bool
}.

Section Methods.
Context {C : Carriers} {K : Kernels}.

(** Lines 128-135: the six entries of [torch.rand(6) < self.p], zipped with
    the names in order, then [torch.rand(()) < 0.5]. *)
Definition _get_params (self : t) (sample : input) : M Params :=
  b <- bernoulli (p self) ;;
  c1 <- bernoulli (p self) ;;
  s <- bernoulli (p self) ;;
  h <- bernoulli (p self) ;;
  c2 <- bernoulli (p self) ;;
  cs <- bernoulli (p self) ;;
  before <- bernoulli 0.5 ;;
  ret (mkParams b c1 s h c2 cs before).

(** [if cond: inpt = transform(inpt)] *)
Definition when (cond : bool) (transform : input -> M input) (inpt : input)
    : M input :=
  if cond then transform inpt else ret inpt.

(** Lines 137-150. *)
Definition _transform (self : t) (inpt : input) (params : Params) : M input :=
  inpt <- when (brightness params)
            (ColorJitter.forward (_brightness self)) inpt ;;
  inpt <- when (contrast1 params && contrast_before params)
            (ColorJitter.forward (_contrast self)) inpt ;;
  inpt <- when (saturation params)
            (ColorJitter.forward (_saturation self)) inpt ;;
  inpt <- when (saturation params)
            (ColorJitter.forward (_saturation self)) inpt ;;
  inpt <- when (contrast2 params && negb (contrast_before params))
            (ColorJitter.forward (_contrast self)) inpt ;;
  inpt <- when (channel_shuffle params) _RandomChannelShuffle.forward inpt ;;
  ret inpt.

(** Modelled from the spec: [Transform.forward] on a single input. *)
Definition forward (self : t) (inpt : input) : M input :=
  params <- _get_params self inpt ;;
  _transform self inpt params.

End Methods.

End RandomPhotometricDistort.

(** ** class [RandomEqualize] *)

Module RandomEqualize.

Record t : Type := mk {
  p : float
}.

(** Lines 154-155; the default is [p = 0.5]. *)
Definition __init__ (p : float) : t := mk p.

Section Methods.
Context {C : Carriers} {K : Kernels}.

(** Lines 157-158. *)
Definition _transform (inpt : input) : input := equalize inpt.

(** Modelled from the spec: [_RandomApplyTransform.forward] (module
    [._transform], not among the sources): "gated by a single Bernoulli(p)
    draw: when the gate is true, replace the image with its equalized
    version; otherwise pass through unchanged" (section 4.6). *)
Definition forward (self : t) (inpt : input) : M input :=
  gate <- bernoulli (p self) ;;
  if gate then ret (_transform inpt) else ret inpt.

End Methods.

End RandomEqualize.
(** ** Reference definitions, after the specification

    These follow the words of the specification, not the code; the theorems
    below compare them with the embedding. *)

Section Reference.
Context {C : Carriers} {K : Kernels}.

(** One call of a pixel kernel. *)
Inductive pixel_op : Type :=
| Brightness (factor : float)
| Contrast (factor : float)
| Saturation (factor : float)
| Hue (factor : float).

(** The index that stands for an operation in [fn_idx]. *)
Definition op_index (op : pixel_op) : nat :=
  match op with
  | Brightness _ => 0
  | Contrast _ => 1
  | Saturation _ => 2
  | Hue _ => 3
  end.

Definition run_op (output : input) (op : pixel_op) : input :=
  match op with
  | Brightness f => adjust_brightness output f
  | Contrast f => adjust_contrast output f
  | Saturation f => adjust_saturation output f
  | Hue f => adjust_hue output f
  end.

(** The operation an index selects, when its factor is not [None]. *)
Definition op_at (params : ColorJitter.Params) (i : nat) : option pixel_op :=
  match i with
  | 0 => option_map Brightness (ColorJitter.brightness_factor params)
  | 1 => option_map Contrast (ColorJitter.contrast_factor params)
  | 2 => option_map Saturation (ColorJitter.saturation_factor params)
  | 3 => option_map Hue (ColorJitter.hue_factor params)
  | _ => None
  end.

Definition is_enabled (params : ColorJitter.Params) (i : nat) : bool :=
  match op_at params i with Some _ => true | None => false end.

(** Section 4.3: "iterate the sampled permutation in order; for each index
    whose corresponding factor is non-None, apply the matching external pixel
    operation"; operations with a [None] factor are skipped. *)
Definition enabled_ops (params : ColorJitter.Params) : list pixel_op :=
  flat_map (fun i => match op_at params i with Some op => [op] | None => [] end)
           (ColorJitter.fn_idx params).

(** The sub-transforms held by [RandomPhotometricDistort]. *)
Inductive sub_transform : Type :=
| SubBrightness | SubContrast | SubSaturation | SubHue | SubChannelShuffle.

(** [self._brightness(inpt)] and its siblings. *)
Definition call_sub (self : RandomPhotometricDistort.t) (t : sub_transform)
    : input -> M input :=
  let jitter (attr : RandomPhotometricDistort.t -> ColorJitter.t) :=
    ColorJitter.forward (attr self) in
  match t with
  | SubBrightness => jitter RandomPhotometricDistort._brightness
  | SubContrast => jitter RandomPhotometricDistort._contrast
  | SubSaturation => jitter RandomPhotometricDistort._saturation
  | SubHue => jitter RandomPhotometricDistort._hue
  | SubChannelShuffle => _RandomChannelShuffle.forward
  end.

(** Section 4.5, "Apply order": brightness, contrast when [contrast_before],
    saturation twice, no hue, contrast when not [contrast_before], channel
    shuffle. *)
Definition schedule (params : RandomPhotometricDistort.Params)
    : list sub_transform :=
  let before := RandomPhotometricDistort.contrast_before params in
  (if RandomPhotometricDistort.brightness params then [SubBrightness] else [])
  ++ (if RandomPhotometricDistort.contrast1 params && before
      then [SubContrast] else [])
  ++ (if RandomPhotometricDistort.saturation params
      then [SubSaturation; SubSaturation] else [])
  ++ (if RandomPhotometricDistort.contrast2 params && negb before
      then [SubContrast] else [])
  ++ (if RandomPhotometricDistort.channel_shuffle params
      then [SubChannelShuffle] else []).

Fixpoint run_schedule (self : RandomPhotometricDistort.t)
    (ts : list sub_transform) (inpt : input) : M input :=
  match ts with
  | [] => ret inpt
  | t :: ts' => out <- call_sub self t inpt ;; run_schedule self ts' out
  end.

(** The tensor an image-like input holds. *)
Definition as_tensor (inpt : input) : option tensor :=
  match inpt with
  | ITensor t => Some t
  | IImage img => Some (data img)
  | IPIL p => Some (pil_to_tensor p)
  | IOther _ => None
  end.

(** "Channel order [old_2, old_0, old_1]" on one three-channel image. *)
Definition reorder_201 (im : chw) : chw :=
  match im with
  | [c0; c1; c2] => [c2; c0; c1]
  | _ => im
  end.

Definition has_3_channels (im : chw) : bool := Nat.eqb (List.length im) 3.

End Reference.

Definition sub_transform_eq_dec (a b : sub_transform) : {a = b} + {a <> b}.
Proof. decide equality. Defined.

(** The transform that [RandomPhotometricDistort()] builds from its
    defaults. *)
Definition default_distort : RandomPhotometricDistort.t :=
  RandomPhotometricDistort.mk
    (ColorJitter.mk (Some (0.875, 1.125)) None None None)
    (ColorJitter.mk None (Some (0.5, 1.5)) None None)
    (ColorJitter.mk None None None (Some (-0.05, 0.05)))
    (ColorJitter.mk None None (Some (0.5, 1.5)) None)
    0.5.

(** The transform that [ColorJitter(brightness=0.2)] builds. *)
Definition brightness_only : ColorJitter.t :=
  ColorJitter.mk (Some (1 - 0.2, 1 + 0.2)) None None None.

(** Induction over a tensor and the tensors nested in it. *)
Fixpoint batch_nested_ind {A} (P : batch A -> Prop)
    (HOne : forall a, P (One a))
    (HMany : forall l, Forall P l -> P (Many l))
    (t : batch A) : P t :=
  match t with
  | One a => HOne a
  | Many l =>
      HMany l
        ((fix each (l : list (batch A)) : Forall P l :=
            match l with
            | [] => Forall_nil P
            | t' :: l' =>
                Forall_cons t' (batch_nested_ind P HOne HMany t') (each l')
            end) l)
  end.
(** ** Binary64 on a line of integers

    Definitions for reasoning about float arithmetic: every finite binary64
    value is an integer multiple of the smallest subnormal, [2^-1074]; its
    [key] is that integer.  Rounding is then a function on integers. *)

Local Close Scope float_scope.
Local Open Scope Z_scope.

(** The key of the positive float [m * 2^e]. *)
Definition pkey (m : positive) (e : Z) : Z := Zpos m * 2 ^ (e + 1074).

(** The key given to [+inf]: [2^1024], the first power of two out of range. *)
Definition key_inf : Z := 2 ^ 2098.

(** The position of a float on the line, in units of the smallest
    subnormal; the infinities sit just past the largest finite float. *)
Definition key (x : spec_float) : Z :=
  match x with
  | S754_zero _ => 0
  | S754_infinity s => cond_Zopp s key_inf
  | S754_nan => 0
  | S754_finite s m e => cond_Zopp s (pkey m e)
  end.

(** Round to nearest, ties to even, at bit [n]. *)
Definition rne (m n : Z) : Z :=
  let q := m / 2 ^ n in
  let rem := m mod 2 ^ n in
  if (2 ^ n <? 2 * rem) || ((2 ^ n =? 2 * rem) && Z.odd q) then q + 1 else q.

(** What a shift record knows about the bits already shifted out of [m]. *)
Definition shifted (m : Z) (k : Z) (mrs : shr_record) : Prop :=
  shr_m mrs = m / 2 ^ k
  /\ shr_r mrs = (2 ^ k <=? 2 * (m mod 2 ^ k))
  /\ shr_s mrs = negb (m mod 2 ^ k =? 0) && negb (2 * (m mod 2 ^ k) =? 2 ^ k).

(** A positive integer rounded to 53 significant bits. *)
Definition rnd (X : Z) : Z :=
  let N := Z.log2 X + 1 - 53 in
  if N <=? 0 then X else rne X N * 2 ^ N.

(** The key of [binary_normalize M e _], as a function of the integer [M]. *)
Definition normal_key (M e : Z) : Z :=
  match M with
  | Z0 => 0
  | Zpos m => Z.min (rnd (pkey m e)) key_inf
  | Zneg m => - Z.min (rnd (pkey m e)) key_inf
  end.

(** An exact sum of keys rounded to a key: 53 significant bits, overflow
    to the key of the infinity of its sign. *)
Definition round_key (X : Z) : Z :=
  match X with
  | Z0 => 0
  | Zpos _ => Z.min (rnd X) key_inf
  | Zneg p => - Z.min (rnd (Zpos p)) key_inf
  end.

(** Zero or finite: neither an infinity nor NaN. *)
Definition is_finite_SF (x : spec_float) : bool :=
  match x with
  | S754_zero _ | S754_finite _ _ _ => true
  | _ => false
  end.

(** The key of [1.0]. *)
Definition key_one : Z := 2 ^ 1074.

(** The key of [2^-54], half the gap between [1.0] and the float below. *)
Definition key_half_ulp : Z := 2 ^ 1020.

Local Close Scope Z_scope.
Local Open Scope float_scope.

(** ** A concrete world, for running the embedding

    Pixels are integers, a PIL image is its [C x H x W] array, the generator
    is a tape of pre-drawn numbers, and the non-image objects are journals in
    which every kernel records its call, so that a run shows which kernels
    were invoked and in which order. *)

Module Demo.

Inductive event : Type :=
| CallBrightness (f : float)
| CallContrast (f : float)
| CallSaturation (f : float)
| CallHue (f : float)
| CallEqualize.

#[export] Instance carriers : Carriers := {|
  scalar := Z;
  pil := list (list (list Z));
  other := list event;
  rng := list float
|}.

(** A non-image object: the journal of the kernel calls made on it. *)
Definition journal (calls : list event) : input := IOther calls.

Definition record (e : event) (inpt : input) : input :=
  match inpt with
  | IOther journal => IOther (journal ++ [e])
  | _ => inpt
  end.

Definition pop (g : list float) : float * list float :=
  match g with
  | u :: g' => (u, g')
  | [] => (0, [])
  end.

Definition first_image (t : tensor) : chw :=
  match t with
  | One im => im
  | Many _ => []
  end.

#[export] Instance kernels : Kernels := {|
  adjust_brightness := fun inpt f => record (CallBrightness f) inpt;
  adjust_contrast := fun inpt f => record (CallContrast f) inpt;
  adjust_saturation := fun inpt f => record (CallSaturation f) inpt;
  adjust_hue := fun inpt f => record (CallHue f) inpt;
  equalize := fun inpt => record CallEqualize inpt;
  pil_to_tensor := fun p => One p;
  to_pil_image := first_image;
  num_channels := fun inpt =>
    match inpt with
    | ITensor t => Ok (List.length (first_image t))
    | IImage img => Ok (List.length (first_image (data img)))
    | IPIL p => Ok (List.length p)
    | IOther _ => Raise TypeError_no_image
    end;
  randperm := fun n g => (rev (seq 0 n), g);
  uniform_sample := fun lo hi g =>
    let (u, g') := pop g in (lo + u * (hi - lo), g');
  rand := pop
|}.

(** A 2 x 2 image with three channels. *)
Definition rgb_2x2 : chw :=
  [ [[10; 11]; [12; 13]]; [[20; 21]; [22; 23]]; [[30; 31]; [32; 33]] ]%Z.

(** A batch of two such images. *)
Definition rgb_pair : tensor := Many [One rgb_2x2; One rgb_2x2].

(** A generator whose next draw is [0.25]. *)
Definition tape_025 : rng := [0x1p-2].

End Demo.
Local Close Scope float_scope.


(** ** Reference definitions for the further properties *)

Definition is_set {A} (r : option A) : bool :=
  match r with Some _ => true | None => false end.

(** Whether the operation of index [i] was given a range at construction. *)
Definition configured (self : ColorJitter.t) (i : nat) : bool :=
  match i with
  | 0 => is_set (ColorJitter.brightness self)
  | 1 => is_set (ColorJitter.contrast self)
  | 2 => is_set (ColorJitter.saturation self)
  | 3 => is_set (ColorJitter.hue self)
  | _ => false
  end.

Section ReferenceMore.
Context {C : Carriers} {K : Kernels}.

(** One image with its channels taken in the order [permutation]: channel
    [k] of the result is channel [permutation[k]]. *)
Definition reindex (permutation : list nat) (im : chw) : chw :=
  map (fun i => nth i im []) permutation.

(** An input of the same kind as [inpt] around the tensor [t]; a
    [features.Image] comes back with the colour space [OTHER]. *)
Definition rebuilt (inpt : input) (t : tensor) : input :=
  match inpt with
  | ITensor _ => ITensor t
  | IImage _ => IImage (mkImage t OTHER)
  | IPIL _ => IPIL (to_pil_image t)
  | IOther _ => inpt
  end.

End ReferenceMore.

Fixpoint batch_exists {A} (P : A -> bool) (t : batch A) : bool :=
  match t with
  | One a => P a
  | Many l => existsb (batch_exists P) l
  end.

(** Every image of the tensor has [n] channels. *)
Definition channels_are {C : Carriers} (n : nat) (t : tensor) : bool :=
  batch_all (fun im : chw => Nat.eqb (List.length im) n) t.

(** [p2[k]] read through [p1]: the permutation that does [p1], then [p2]. *)
Definition then_permutation (p1 p2 : list nat) : list nat :=
  map (fun k => nth k p1 0) p2.

Section ReferenceDistort.
Context {C : Carriers} {K : Kernels}.

(** The generator after [n] draws of [torch.rand]. *)
Fixpoint after_draws (n : nat) (g : rng) : rng :=
  match n with
  | 0 => g
  | S n' => after_draws n' (snd (rand g))
  end.

(** The same collaborators with another hue kernel. *)
Definition with_adjust_hue (hue_kernel : input -> float -> input) : Kernels := {|
  adjust_brightness := adjust_brightness;
  adjust_contrast := adjust_contrast;
  adjust_saturation := adjust_saturation;
  adjust_hue := hue_kernel;
  equalize := equalize;
  pil_to_tensor := pil_to_tensor;
  to_pil_image := to_pil_image;
  num_channels := num_channels;
  randperm := randperm;
  uniform_sample := uniform_sample;
  rand := rand
|}.

(** The kernels a call of [RandomPhotometricDistort] reaches when the channel
    shuffle is off, by index ([0] brightness, [1] contrast, [2] saturation):
    each gated sub-transform contributes its kernel if its range is set. *)
Definition kernel_schedule (self : RandomPhotometricDistort.t)
    (params : RandomPhotometricDistort.Params) : list nat :=
  let before := RandomPhotometricDistort.contrast_before params in
  let has (j : ColorJitter.t) (i : nat) (gate : bool) (calls : list nat) :=
    if gate && configured j i then calls else [] in
  has (RandomPhotometricDistort._brightness self) 0
      (RandomPhotometricDistort.brightness params) [0]
  ++ has (RandomPhotometricDistort._contrast self) 1
      (RandomPhotometricDistort.contrast1 params && before) [1]
  ++ has (RandomPhotometricDistort._saturation self) 2
      (RandomPhotometricDistort.saturation params) [2; 2]
  ++ has (RandomPhotometricDistort._contrast self) 1
      (RandomPhotometricDistort.contrast2 params && negb before) [1].

End ReferenceDistort.

(** A generator of the demonstration world with ten draws in store. *)
Definition tape_10 : list float :=
  [0x1p-1; 0x1p-2; 0x1p-3; 0x1p-1; 0x1p-2; 0x1p-3; 0x1p-1; 0x1p-2; 0x1p-3;
   0x1p-1]%float.

Local Open Scope float_scope.

(** * Properties *)

(** ** Facts about binary64 comparisons *)

Module FloatFacts.

Lemma SFcompare_antisym (x y : spec_float) :
  SFcompare y x = option_map CompOpp (SFcompare x y).
Proof.
  destruct x as [sx | sx | | sx mx ex], y as [sy | sy | | sy my ey];
    simpl; try reflexivity;
    try (destruct sx; reflexivity); try (destruct sy; reflexivity);
    try (destruct sx, sy; reflexivity).
  destruct sx, sy; simpl; try reflexivity;
    rewrite (Z.compare_antisym ey ex);
    destruct (Z.compare ey ex) eqn:E; simpl; try reflexivity;
    rewrite (Pos.compare_cont_antisym mx my Eq); simpl; reflexivity.
Qed.

Lemma ltb_leb_false (x y : float) : (x <? y) = true -> (y <=? x) = false.
Proof.
  rewrite ltb_spec, leb_spec. unfold SFltb, SFleb.
  rewrite (SFcompare_antisym (Prim2SF x) (Prim2SF y)).
  destruct (SFcompare (Prim2SF x) (Prim2SF y)) as [[ | | ] | ];
    simpl; congruence.
Qed.

Lemma leb_ltb_false (x y : float) : (x <=? y) = true -> (y <? x) = false.
Proof.
  intros H. destruct (y <? x) eqn:E; [ | reflexivity ].
  apply ltb_leb_false in E. congruence.
Qed.

(** Two floats neither of which is NaN are comparable. *)
Lemma ltb_or_leb (x y : float) :
  (x =? x) = true -> (y =? y) = true -> (x <? y) = true \/ (y <=? x) = true.
Proof.
  rewrite !eqb_spec, ltb_spec, leb_spec. unfold SFeqb, SFltb, SFleb.
  rewrite (SFcompare_antisym (Prim2SF x) (Prim2SF y)).
  destruct (Prim2SF x) as [sx | sx | | sx mx ex], (Prim2SF y) as [sy | sy | | sy my ey];
    try (simpl; discriminate); intros _ _;
    destruct (SFcompare _ _) as [[ | | ] | ] eqn:E; simpl; auto;
    simpl in E; try discriminate;
    destruct sx; try destruct sy; discriminate.
Qed.

(** A float equal to zero is one of the two zeros. *)
Lemma eqb_zero (v : float) : (v =? 0) = true -> v = 0 \/ v = (-0).
Proof.
  rewrite eqb_spec. intros H.
  assert (E : exists s, Prim2SF v = S754_zero s).
  { destruct (Prim2SF v) as [s | s | | s m e]; try (exists s; reflexivity);
      try (destruct s; discriminate); discriminate. }
  destruct E as [s E]. apply (f_equal SF2Prim) in E.
  rewrite SF2Prim_Prim2SF in E. subst v.
  destruct s; [ right | left ]; reflexivity.
Qed.

End FloatFacts.

(** ** Binary64 rounding: addition and subtraction are monotone *)

Local Close Scope float_scope.
Local Open Scope Z_scope.

(** Case analysis on every integer test left in the goal. *)
Ltac Z_test_case :=
  match goal with
  | |- context [(?x =? ?y)%Z] => destruct (Z.eqb_spec x y)
  | |- context [(?x <? ?y)%Z] => destruct (Z.ltb_spec x y)
  | |- context [(?x <=? ?y)%Z] => destruct (Z.leb_spec x y)
  end.

Ltac Z_bool_cases := repeat Z_test_case.


Lemma digits2_size (m : positive) : digits2_pos m = Pos.size m.
Proof. induction m; simpl; congruence. Qed.

Lemma digits2_bounds (m : positive) :
  2 ^ (Zpos (digits2_pos m) - 1) <= Zpos m < 2 ^ Zpos (digits2_pos m).
Proof.
  rewrite digits2_size. split.
  - pose proof (Pos.size_le m) as H.
    apply Pos2Z.pos_le_pos in H. rewrite Pos2Z.inj_pow, (Pos2Z.inj_xO m) in H.
    assert (E : 2 ^ Zpos (Pos.size m) = 2 * 2 ^ (Zpos (Pos.size m) - 1)).
    { rewrite <- Z.pow_succ_r by lia. f_equal. lia. }
    lia.
  - pose proof (Pos.size_gt m) as H.
    apply Pos2Z.pos_lt_pos in H. rewrite Pos2Z.inj_pow in H. exact H.
Qed.

(** Digits are determined by the binade. *)
Lemma digits2_unique (m : positive) (d : Z) :
  2 ^ (d - 1) <= Zpos m < 2 ^ d -> Zpos (digits2_pos m) = d.
Proof.
  intros [Hlo Hhi]. pose proof (digits2_bounds m) as [Hlo' Hhi'].
  set (d' := Zpos (digits2_pos m)) in *.
  assert (0 < d').
  { unfold d'. lia. }
  assert (0 < d).
  { destruct (Z.ltb_spec 0 d); auto. rewrite (Z.pow_neg_r 2 (d - 1)) in Hlo by lia.
    assert (d = 0 \/ d < 0) as [-> | ] by lia.
    - simpl in Hhi. lia.
    - rewrite Z.pow_neg_r in Hhi by lia. lia. }
  destruct (Z.lt_trichotomy d' d) as [Hlt | [Heq | Hgt]]; auto; exfalso.
  - assert (2 ^ d' <= 2 ^ (d - 1)) by (apply Z.pow_le_mono_r; lia). lia.
  - assert (2 ^ d <= 2 ^ (d' - 1)) by (apply Z.pow_le_mono_r; lia). lia.
Qed.

Lemma digits2_shift (m : positive) (k : positive) :
  Zpos (digits2_pos (Pos.iter xO m k)) = Zpos (digits2_pos m) + Zpos k
  /\ Zpos (Pos.iter xO m k) = Zpos m * 2 ^ Zpos k.
Proof.
  induction k as [ | k IH ] using Pos.peano_ind.
  - simpl. split; lia.
  - rewrite Pos.iter_succ. simpl digits2_pos. destruct IH as [IHd IHv].
    rewrite Pos2Z.inj_succ, Pos2Z.inj_xO, IHv.
    rewrite Pos2Z.inj_succ, IHd. rewrite Z.pow_succ_r by lia. split; lia.
Qed.




Lemma bounded_inv (m : positive) (e : Z) :
  bounded prec emax m e = true ->
  -1074 <= e <= 971
  /\ Zpos (digits2_pos m) <= 53
  /\ (-1074 < e -> Zpos (digits2_pos m) = 53).
Proof.
  unfold bounded, canonical_mantissa, fexp, emin, prec, emax.
  intros H. apply andb_prop in H as [H1 H2].
  apply Z.eqb_eq in H1. apply Z.leb_le in H2. lia.
Qed.

Lemma pow2_pos (k : Z) : 0 <= k -> 0 < 2 ^ k.
Proof. intros. apply Z.pow_pos_nonneg; lia. Qed.

Lemma pkey_pos (m : positive) (e : Z) : -1074 <= e -> 0 < pkey m e.
Proof.
  intros H. unfold pkey. apply Z.mul_pos_pos; [ lia | apply pow2_pos; lia ].
Qed.

Lemma pkey_lt_inf (m : positive) (e : Z) :
  bounded prec emax m e = true -> 0 < pkey m e < key_inf.
Proof.
  intros H. destruct (bounded_inv m e H) as [He [Hd _]].
  split; [ apply pkey_pos; lia | ].
  unfold pkey, key_inf. pose proof (digits2_bounds m) as [_ Hm].
  assert (Zpos m < 2 ^ 53).
  { eapply Z.lt_le_trans; [ exact Hm | apply Z.pow_le_mono_r; lia ]. }
  assert (2 ^ (e + 1074) <= 2 ^ 2045) by (apply Z.pow_le_mono_r; lia).
  assert (0 < 2 ^ (e + 1074)) by (apply pow2_pos; lia).
  replace 2098 with (53 + 2045) by lia. rewrite (Z.pow_add_r 2 53 2045) by lia.
  apply Z.lt_le_trans with (2 ^ 53 * 2 ^ (e + 1074)).
  - apply Z.mul_lt_mono_pos_r; assumption.
  - apply Z.mul_le_mono_nonneg_l; [ apply Z.pow_nonneg; lia | assumption ].
Qed.

Lemma pkey_exp_lt (m1 m2 : positive) (e1 e2 : Z) :
  bounded prec emax m1 e1 = true -> bounded prec emax m2 e2 = true ->
  e1 < e2 -> pkey m1 e1 < pkey m2 e2.
Proof.
  intros H1 H2 Hlt.
  destruct (bounded_inv m1 e1 H1) as [He1 [Hd1 _]].
  destruct (bounded_inv m2 e2 H2) as [He2 [_ Hd2]].
  specialize (Hd2 ltac:(lia)).
  pose proof (digits2_bounds m1) as [_ Hm1].
  pose proof (digits2_bounds m2) as [Hm2 _]. rewrite Hd2 in Hm2.
  assert (Zpos m1 < 2 ^ 53).
  { eapply Z.lt_le_trans; [ exact Hm1 | apply Z.pow_le_mono_r; lia ]. }
  unfold pkey.
  assert (0 < 2 ^ (e1 + 1074)) by (apply pow2_pos; lia).
  replace (e2 + 1074) with ((e2 - e1 - 1) + 1 + (e1 + 1074)) by lia.
  rewrite (Z.pow_add_r 2 (e2 - e1 - 1 + 1) (e1 + 1074)) by lia.
  rewrite (Z.pow_add_r 2 (e2 - e1 - 1) 1) by lia.
  assert (1 <= 2 ^ (e2 - e1 - 1)) by (apply (Z.pow_le_mono_r 2 0); lia).
  change (2 ^ 1) with 2. change (53 - 1) with 52 in Hm2.
  assert (E : 2 ^ 53 = 2 * 2 ^ 52) by reflexivity.
  apply Z.lt_le_trans with (2 ^ 53 * 2 ^ (e1 + 1074)).
  - apply Z.mul_lt_mono_pos_r; assumption.
  - rewrite Z.mul_assoc. apply Z.mul_le_mono_nonneg_r; [ lia | ].
    rewrite E. nia.
Qed.

Lemma pkey_compare (m1 m2 : positive) (e1 e2 : Z) :
  bounded prec emax m1 e1 = true -> bounded prec emax m2 e2 = true ->
  match Z.compare e1 e2 with
  | Lt => Lt
  | Gt => Gt
  | Eq => Pos.compare_cont Eq m1 m2
  end = (pkey m1 e1 ?= pkey m2 e2).
Proof.
  intros H1 H2. destruct (Z.compare_spec e1 e2) as [-> | Hlt | Hgt].
  - destruct (bounded_inv m2 e2 H2) as [He2 _].
    unfold pkey. change (Pos.compare_cont Eq m1 m2) with (Zpos m1 ?= Zpos m2).
    apply Zmult_compare_compat_r. apply Z.lt_gt, pow2_pos. lia.
  - symmetry. apply Z.compare_lt_iff. apply pkey_exp_lt; assumption.
  - symmetry. apply Z.compare_gt_iff. apply pkey_exp_lt; assumption.
Qed.

Lemma SFcompare_key (x y : spec_float) :
  valid_binary x = true -> valid_binary y = true ->
  x <> S754_nan -> y <> S754_nan ->
  SFcompare x y = Some (key x ?= key y).
Proof.
  intros Vx Vy Nx Ny.
  assert (I : 0 < key_inf) by (apply pow2_pos; lia).
  destruct x as [sx | sx | | sx mx ex]; try congruence;
    destruct y as [sy | sy | | sy my ey]; try congruence;
    simpl in Vx, Vy;
    try pose proof (pkey_lt_inf mx ex Vx);
    try pose proof (pkey_lt_inf my ey Vy);
    unfold SFcompare; cbn [key];
    try (destruct sx); try (destruct sy); cbn [cond_Zopp]; f_equal; symmetry;
    try (rewrite pkey_compare by assumption);
    try (apply Z.compare_lt_iff; lia);
    try (apply Z.compare_gt_iff; lia);
    try (apply Z.compare_eq_iff; lia).
  - rewrite Z.compare_opp.
    rewrite <- (pkey_compare my mx ey ex) by assumption.
    rewrite (Z.compare_antisym ey ex).
    destruct (ey ?= ex); simpl; try reflexivity.
    symmetry. apply (Pos.compare_cont_antisym mx my Eq).
  - reflexivity.
Qed.

(** *** Shifting right with round and sticky bits *)




Lemma shr_1_spec (m : Z) (r s : bool) :
  0 <= m ->
  shr_1 {| shr_m := m; shr_r := r; shr_s := s |}
  = {| shr_m := m / 2; shr_r := Z.odd m; shr_s := r || s |}.
Proof.
  intros Hm. rewrite <- Z.div2_div.
  destruct m as [ | p | p ]; [ reflexivity | | lia ].
  destruct p; reflexivity.
Qed.

Lemma shifted_0 (m : Z) :
  shifted m 0 {| shr_m := m; shr_r := false; shr_s := false |}.
Proof.
  unfold shifted. cbn [shr_m shr_r shr_s]. change (2 ^ 0) with 1.
  rewrite Z.div_1_r, Z.mod_1_r. repeat split.
Qed.

Lemma shifted_step (m k : Z) (mrs : shr_record) :
  0 <= m -> 0 <= k -> shifted m k mrs -> shifted m (k + 1) (shr_1 mrs).
Proof.
  intros Hm Hk [Hq [Hr Hs]]. destruct mrs as [q r s]. cbn [shr_m shr_r shr_s] in *.
  assert (Hh : 0 < 2 ^ k) by (apply pow2_pos; lia).
  assert (E : 2 ^ (k + 1) = 2 * 2 ^ k) by (rewrite Z.pow_add_r by lia; lia).
  pose proof (Z.div_mod m (2 ^ k) ltac:(lia)) as Dm.
  pose proof (Z.mod_pos_bound m (2 ^ k) Hh) as Bm.
  assert (Hq0 : 0 <= q) by (subst q; apply Z.div_pos; lia).
  rewrite (shr_1_spec q r s Hq0).
  pose proof (Z.div_mod q 2 ltac:(lia)) as Dq.
  pose proof (Z.mod_pos_bound q 2 ltac:(lia)) as Bq.
  set (b := q mod 2) in *. set (q' := q / 2) in *.
  set (rem := m mod 2 ^ k) in *. set (h := 2 ^ k) in *.
  assert (Ediv : m / 2 ^ (k + 1) = q' /\ m mod 2 ^ (k + 1) = rem + b * h).
  { rewrite E. symmetry in Hq.
    assert (Em : m = (2 * h) * q' + (rem + b * h)) by nia.
    split.
    - symmetry. apply (Z.div_unique_pos m (2 * h) q' (rem + b * h)); [ nia | exact Em ].
    - symmetry. apply (Z.mod_unique_pos m (2 * h) q' (rem + b * h)); [ nia | exact Em ]. }
  destruct Ediv as [Ed Er].
  unfold shifted. cbn [shr_m shr_r shr_s]. rewrite Ed, Er, E.
  assert (Hodd : Z.odd q = (b =? 1)).
  { rewrite Zodd_mod. reflexivity. }
  rewrite Hodd, Hr, Hs. clear Hodd Hr Hs Ed Er Dq Dm Hq.
  clearbody b q' rem h.
  assert (Hb : b = 0 \/ b = 1) by lia.
  split; [ reflexivity | split ];
    destruct Hb; subst b; Z_bool_cases; try reflexivity; lia.
Qed.

Lemma iter_pos_nat {A} (f : A -> A) (p : positive) (x : A) :
  iter_pos f p x = Nat.iter (Pos.to_nat p) f x.
Proof.
  revert x. induction p as [ p IH | p IH | ]; intros x; simpl iter_pos.
  - rewrite !IH, Pos2Nat.inj_xI.
    replace (S (2 * Pos.to_nat p)) with (Pos.to_nat p + (Pos.to_nat p + 1))%nat by lia.
    rewrite !Nat.iter_add. reflexivity.
  - rewrite !IH, Pos2Nat.inj_xO.
    replace (2 * Pos.to_nat p)%nat with (Pos.to_nat p + Pos.to_nat p)%nat by lia.
    rewrite Nat.iter_add. reflexivity.
  - reflexivity.
Qed.

Lemma shifted_iter (m : Z) (p : positive) :
  0 <= m ->
  shifted m (Zpos p)
    (iter_pos shr_1 p {| shr_m := m; shr_r := false; shr_s := false |}).
Proof.
  intros Hm. rewrite iter_pos_nat. rewrite <- (positive_nat_Z p).
  induction (Pos.to_nat p) as [ | k IH ].
  - apply shifted_0.
  - rewrite Nat2Z.inj_succ. unfold Z.succ. simpl Nat.iter.
    apply shifted_step; [ exact Hm | lia | exact IH ].
Qed.

Lemma round_shifted (m k : Z) (mrs : shr_record) :
  0 <= m -> 0 <= k -> shifted m k mrs ->
  round_nearest_even (shr_m mrs) (loc_of_shr_record mrs) = rne m k.
Proof.
  intros Hm Hk [Hq [Hr Hs]]. destruct mrs as [q r s]. cbn [shr_m shr_r shr_s] in *.
  assert (Hh : 0 < 2 ^ k) by (apply pow2_pos; lia).
  pose proof (Z.mod_pos_bound m (2 ^ k) Hh) as Bm.
  unfold rne. rewrite <- Hq. rewrite <- Z.negb_even.
  set (rem := m mod 2 ^ k) in *. set (h := 2 ^ k) in *.
  subst r s.
  destruct (Z.leb_spec h (2 * rem)), (Z.eqb_spec rem 0), (Z.eqb_spec (2 * rem) h),
    (Z.ltb_spec h (2 * rem)), (Z.eqb_spec h (2 * rem));
    try lia; cbn; try reflexivity; destruct (Z.even q); reflexivity.
Qed.

Lemma rne_mono (m1 m2 n : Z) :
  0 <= n -> m1 <= m2 -> rne m1 n <= rne m2 n.
Proof.
  intros Hn Hle. unfold rne.
  assert (Hh : 0 < 2 ^ n) by (apply pow2_pos; lia).
  pose proof (Z.div_mod m1 (2 ^ n) ltac:(lia)) as D1.
  pose proof (Z.div_mod m2 (2 ^ n) ltac:(lia)) as D2.
  pose proof (Z.mod_pos_bound m1 (2 ^ n) Hh) as B1.
  pose proof (Z.mod_pos_bound m2 (2 ^ n) Hh) as B2.
  set (q1 := m1 / 2 ^ n) in *. set (q2 := m2 / 2 ^ n) in *.
  set (r1 := m1 mod 2 ^ n) in *. set (r2 := m2 mod 2 ^ n) in *.
  set (h := 2 ^ n) in *.
  assert (Hq : q1 < q2 \/ (q1 = q2 /\ r1 <= r2)) by nia.
  destruct Hq as [Hq | [Hq Hr]].
  - destruct (_ || _), (_ || _); lia.
  - rewrite <- Hq.
    destruct (Z.ltb_spec h (2 * r1)), (Z.eqb_spec h (2 * r1)),
      (Z.ltb_spec h (2 * r2)), (Z.eqb_spec h (2 * r2));
      cbn; try lia; destruct (Z.odd q1); lia.
Qed.

Lemma rne_bounds (m n : Z) :
  0 <= n -> m / 2 ^ n <= rne m n <= m / 2 ^ n + 1.
Proof. intros. unfold rne. destruct (_ || _); lia. Qed.

Lemma rne_exact (a n : Z) : 0 <= n -> rne (a * 2 ^ n) n = a.
Proof.
  intros Hn. unfold rne.
  assert (Hh : 0 < 2 ^ n) by (apply pow2_pos; lia).
  rewrite Z.div_mul, Z.mod_mul by lia.
  destruct (Z.ltb_spec (2 ^ n) (2 * 0)), (Z.eqb_spec (2 ^ n) (2 * 0)); try lia.
  reflexivity.
Qed.

Lemma rne_scale (a n k : Z) :
  0 <= n -> 0 <= k -> rne (a * 2 ^ k) (n + k) = rne a n.
Proof.
  intros Hn Hk. unfold rne.
  assert (Hh : 0 < 2 ^ n) by (apply pow2_pos; lia).
  assert (Hk' : 0 < 2 ^ k) by (apply pow2_pos; lia).
  rewrite Z.pow_add_r by lia.
  rewrite Z.div_mul_cancel_r by lia.
  rewrite Z.mul_mod_distr_r by lia.
  set (q := a / 2 ^ n). set (rem := a mod 2 ^ n). set (h := 2 ^ n). set (c := 2 ^ k) in *.
  assert (E1 : (h * c <? 2 * (rem * c)) = (h <? 2 * rem)).
  { destruct (Z.ltb_spec (h * c) (2 * (rem * c))), (Z.ltb_spec h (2 * rem));
      try reflexivity; nia. }
  assert (E2 : (h * c =? 2 * (rem * c)) = (h =? 2 * rem)).
  { destruct (Z.eqb_spec (h * c) (2 * (rem * c))), (Z.eqb_spec h (2 * rem));
      try reflexivity; nia. }
  rewrite E1, E2. reflexivity.
Qed.

(** *** Rounding a positive integer to 53 significant bits *)


Lemma log2_digits (m : positive) : Z.log2 (Zpos m) + 1 = Zpos (digits2_pos m).
Proof.
  pose proof (digits2_bounds m) as B.
  rewrite (Z.log2_unique (Zpos m) (Zpos (digits2_pos m) - 1)); [ lia | lia | ].
  replace (Z.succ (Zpos (digits2_pos m) - 1)) with (Zpos (digits2_pos m)) by lia.
  exact B.
Qed.

Lemma log2_pkey (m : positive) (e : Z) :
  -1074 <= e -> Z.log2 (pkey m e) + 1 = Zpos (digits2_pos m) + e + 1074.
Proof.
  intros He. unfold pkey. rewrite Z.log2_mul_pow2 by lia.
  pose proof (log2_digits m). lia.
Qed.

Lemma rnd_bounds (X : Z) :
  0 < X -> 2 ^ Z.log2 X <= rnd X <= 2 ^ (Z.log2 X + 1).
Proof.
  intros HX. pose proof (Z.log2_spec X HX) as B. unfold Z.succ in B.
  pose proof (Z.log2_nonneg X) as HL.
  unfold rnd. destruct (Z.leb_spec (Z.log2 X + 1 - 53) 0) as [HN | HN]; [ lia | ].
  set (N := Z.log2 X + 1 - 53) in *.
  assert (Hh : 0 < 2 ^ N) by (apply pow2_pos; lia).
  assert (E1 : 2 ^ Z.log2 X = 2 ^ 52 * 2 ^ N).
  { rewrite <- Z.pow_add_r by lia. f_equal. lia. }
  assert (E2 : 2 ^ (Z.log2 X + 1) = 2 ^ 53 * 2 ^ N).
  { rewrite <- Z.pow_add_r by lia. f_equal. lia. }
  rewrite E1, E2 in *.
  pose proof (rne_bounds X N ltac:(lia)) as Br.
  assert (Hq : 2 ^ 52 <= X / 2 ^ N < 2 ^ 53).
  { split.
    - apply Z.div_le_lower_bound; lia.
    - apply Z.div_lt_upper_bound; lia. }
  split; apply Z.mul_le_mono_nonneg_r; lia.
Qed.

Lemma rnd_mono (X1 X2 : Z) : 0 < X1 -> X1 <= X2 -> rnd X1 <= rnd X2.
Proof.
  intros H1 Hle. assert (H2 : 0 < X2) by lia.
  pose proof (Z.log2_le_mono X1 X2 Hle) as HL.
  pose proof (Z.log2_nonneg X1) as HL1.
  destruct (Z.eq_dec (Z.log2 X1) (Z.log2 X2)) as [E | NE].
  - unfold rnd. rewrite E.
    destruct (Z.leb_spec (Z.log2 X2 + 1 - 53) 0) as [HN | HN]; [ exact Hle | ].
    apply Z.mul_le_mono_nonneg_r; [ apply Z.pow_nonneg; lia | ].
    apply rne_mono; lia.
  - pose proof (rnd_bounds X1 H1) as [_ B1].
    pose proof (rnd_bounds X2 H2) as [B2 _].
    assert (2 ^ (Z.log2 X1 + 1) <= 2 ^ Z.log2 X2) by (apply Z.pow_le_mono_r; lia).
    lia.
Qed.

Lemma rnd_exact (m : positive) (e : Z) :
  -1074 <= e -> Zpos (digits2_pos m) <= 53 -> rnd (pkey m e) = pkey m e.
Proof.
  intros He Hd. unfold rnd. rewrite (log2_pkey m e He).
  destruct (Z.leb_spec (Zpos (digits2_pos m) + e + 1074 - 53) 0) as [HN | HN];
    [ reflexivity | ].
  set (N := Zpos (digits2_pos m) + e + 1074 - 53) in *.
  unfold pkey.
  replace (e + 1074) with ((e + 1074 - N) + N) by lia.
  rewrite Z.pow_add_r by lia. rewrite Z.mul_assoc.
  rewrite rne_exact by lia. reflexivity.
Qed.

Lemma rnd_shift (m : positive) (e n : Z) :
  -1074 <= e -> 0 < n -> n = Zpos (digits2_pos m) - 53 ->
  rnd (pkey m e) = rne (Zpos m) n * 2 ^ (n + (e + 1074)).
Proof.
  intros He Hn En. unfold rnd. rewrite (log2_pkey m e He).
  destruct (Z.leb_spec (Zpos (digits2_pos m) + e + 1074 - 53) 0) as [HN | HN];
    [ lia | ].
  replace (Zpos (digits2_pos m) + e + 1074 - 53) with (n + (e + 1074)) by lia.
  unfold pkey. rewrite rne_scale by lia. reflexivity.
Qed.

(** *** The key of a rounded result *)

Lemma fexp_eq (x : Z) : fexp prec emax x = Z.max (x - 53) (-1074).
Proof. reflexivity. Qed.

Lemma shr_fexp_exact (m : positive) (e : Z) :
  fexp prec emax (Zpos (digits2_pos m) + e) = e ->
  shr_fexp prec emax (Zpos m) e loc_Exact
  = ({| shr_m := Zpos m; shr_r := false; shr_s := false |}, e).
Proof.
  intros H. unfold shr_fexp, Zdigits2. rewrite H, Z.sub_diag. reflexivity.
Qed.

Lemma shr_fexp_shift (m : positive) (e : Z) (p : positive) :
  fexp prec emax (Zpos (digits2_pos m) + e) - e = Zpos p ->
  shr_fexp prec emax (Zpos m) e loc_Exact
  = (iter_pos shr_1 p {| shr_m := Zpos m; shr_r := false; shr_s := false |},
     e + Zpos p).
Proof.
  intros H. unfold shr_fexp, Zdigits2. rewrite H. reflexivity.
Qed.

(** The last step of [binary_round_aux]: the overflow test. *)
Lemma overflow_key (sx : bool) (m : positive) (e : Z) :
  -1074 <= e ->
  Zpos (digits2_pos m) <= 53 ->
  (971 < e -> Zpos (digits2_pos m) = 53) ->
  let r := if e <=? emax - prec then S754_finite sx m e else S754_infinity sx in
  r <> S754_nan /\ key r = cond_Zopp sx (Z.min (pkey m e) key_inf).
Proof.
  intros He Hd Hd'. change (emax - prec) with 971.
  pose proof (digits2_bounds m) as [Hlo Hhi].
  assert (P : 0 < 2 ^ (e + 1074)) by (apply pow2_pos; lia).
  destruct (Z.leb_spec e 971) as [Hle | Hgt]; cbn zeta; split; try discriminate;
    cbn [key]; f_equal.
  - assert (pkey m e < key_inf); [ | lia ].
    unfold pkey, key_inf.
    assert (Zpos m < 2 ^ 53).
    { eapply Z.lt_le_trans; [ exact Hhi | apply Z.pow_le_mono_r; lia ]. }
    assert (2 ^ (e + 1074) <= 2 ^ 2045) by (apply Z.pow_le_mono_r; lia).
    replace 2098 with (53 + 2045) by lia. rewrite (Z.pow_add_r 2 53 2045) by lia.
    apply Z.lt_le_trans with (2 ^ 53 * 2 ^ (e + 1074)).
    + apply Z.mul_lt_mono_pos_r; assumption.
    + apply Z.mul_le_mono_nonneg_l; [ apply Z.pow_nonneg; lia | assumption ].
  - assert (key_inf <= pkey m e); [ | lia ].
    unfold pkey, key_inf. rewrite (Hd' Hgt) in Hlo. change (53 - 1) with 52 in Hlo.
    assert (2 ^ 2046 <= 2 ^ (e + 1074)) by (apply Z.pow_le_mono_r; lia).
    replace 2098 with (52 + 2046) by lia. rewrite (Z.pow_add_r 2 52 2046) by lia.
    apply Z.le_trans with (2 ^ 52 * 2 ^ (e + 1074)).
    + apply Z.mul_le_mono_nonneg_l; [ apply Z.pow_nonneg; lia | assumption ].
    + apply Z.mul_le_mono_nonneg_r; lia.
Qed.

Lemma round_aux_key (sx : bool) (mz : positive) (ez : Z) :
  -1074 <= ez ->
  ez <= fexp prec emax (Zpos (digits2_pos mz) + ez) ->
  let r := binary_round_aux prec emax sx (Zpos mz) ez loc_Exact in
  r <> S754_nan /\ key r = cond_Zopp sx (Z.min (rnd (pkey mz ez)) key_inf).
Proof.
  intros He Hal. rewrite fexp_eq in Hal.
  destruct (Z.le_gt_cases (Zpos (digits2_pos mz)) 53) as [Hd | Hd].
  - (* nothing to shift out *)
    assert (Hf : fexp prec emax (Zpos (digits2_pos mz) + ez) = ez).
    { rewrite fexp_eq. lia. }
    unfold binary_round_aux. rewrite (shr_fexp_exact mz ez Hf).
    cbn [shr_m loc_of_shr_record round_nearest_even].
    rewrite (shr_fexp_exact mz ez Hf). cbn [shr_m].
    rewrite (rnd_exact mz ez He Hd).
    apply overflow_key; try assumption.
    intros Hgt. rewrite fexp_eq in Hf. lia.
  - (* the low [n] bits are rounded away *)
    destruct (Zpos (digits2_pos mz) - 53) as [ | p | p ] eqn:En; try lia.
    assert (Hf : fexp prec emax (Zpos (digits2_pos mz) + ez) - ez = Zpos p).
    { rewrite fexp_eq. lia. }
    unfold binary_round_aux. rewrite (shr_fexp_shift mz ez p Hf).
    pose proof (shifted_iter (Zpos mz) p ltac:(lia)) as Hs.
    rewrite (round_shifted (Zpos mz) (Zpos p) _ ltac:(lia) ltac:(lia) Hs).
    rewrite (rnd_shift mz ez (Zpos p) He ltac:(lia) ltac:(lia)).
    pose proof (rne_bounds (Zpos mz) (Zpos p) ltac:(lia)) as Br.
    pose proof (digits2_bounds mz) as [Hlo Hhi].
    assert (Hh : 0 < 2 ^ Zpos p) by (apply pow2_pos; lia).
    assert (Hq : 2 ^ 52 <= Zpos mz / 2 ^ Zpos p < 2 ^ 53).
    { replace (Zpos (digits2_pos mz) - 1) with (52 + Zpos p) in Hlo by lia.
      replace (Zpos (digits2_pos mz)) with (53 + Zpos p) in Hhi by lia.
      rewrite Z.pow_add_r in Hlo, Hhi by lia. split.
      - apply Z.div_le_lower_bound; lia.
      - apply Z.div_lt_upper_bound; lia. }
    set (m1 := rne (Zpos mz) (Zpos p)) in *.
    assert (Hm1 : 2 ^ 52 <= m1 <= 2 ^ 53) by lia.
    clearbody m1. clear Hs Br Hq.
    destruct m1 as [ | p1 | p1 ]; try (exfalso; change (2 ^ 52) with 4503599627370496 in Hm1; lia).
    destruct (Z.eq_dec (Zpos p1) (2 ^ 53)) as [E53 | N53].
    + (* the carry makes a 54th bit *)
      change (2 ^ 53) with (Zpos 9007199254740992) in E53.
      injection E53 as ->.
      rewrite (shr_fexp_shift 9007199254740992 (ez + Zpos p) 1).
      2:{ rewrite fexp_eq. change (Zpos (digits2_pos 9007199254740992)) with 54. lia. }
      cbn [iter_pos shr_1 shr_m].
      replace (Zpos 9007199254740992 * 2 ^ (Zpos p + (ez + 1074)))
        with (pkey 4503599627370496 (ez + Zpos p + 1)).
      2:{ unfold pkey. replace (ez + Zpos p + 1 + 1074) with (1 + (Zpos p + (ez + 1074))) by lia.
          rewrite (Z.pow_add_r 2 1 _) by lia. change (2 ^ 1) with 2. lia. }
      apply overflow_key; [ lia | | ];
        change (Zpos (digits2_pos 4503599627370496)) with 53; lia.
    + assert (Hd1 : Zpos (digits2_pos p1) = 53).
      { apply digits2_unique. change (53 - 1) with 52. lia. }
      rewrite (shr_fexp_exact p1 (ez + Zpos p)).
      2:{ rewrite fexp_eq, Hd1. lia. }
      cbn [shr_m].
      replace (Zpos p1 * 2 ^ (Zpos p + (ez + 1074))) with (pkey p1 (ez + Zpos p)).
      2:{ unfold pkey. f_equal. f_equal. lia. }
      apply overflow_key; lia.
Qed.

Lemma binary_round_key (sx : bool) (m : positive) (e : Z) :
  -1074 <= e ->
  let r := binary_round prec emax sx m e in
  r <> S754_nan /\ key r = cond_Zopp sx (Z.min (rnd (pkey m e)) key_inf).
Proof.
  intros He. unfold binary_round, shl_align.
  set (f := fexp prec emax (Zpos (digits2_pos m) + e)).
  assert (Hf : f = Z.max (Zpos (digits2_pos m) + e - 53) (-1074)) by reflexivity.
  destruct (f - e) as [ | d | d ] eqn:Ed.
  - apply round_aux_key; [ exact He | fold f; lia ].
  - apply round_aux_key; [ exact He | fold f; lia ].
  - destruct (digits2_shift m d) as [Hd Hv].
    replace (pkey m e) with (pkey (Pos.iter xO m d) f).
    2:{ unfold pkey. rewrite Hv, <- Z.mul_assoc, <- Z.pow_add_r by lia.
        f_equal. f_equal. lia. }
    apply round_aux_key; [ lia | ].
    rewrite Hd. replace (Zpos (digits2_pos m) + Zpos d + f)
      with (Zpos (digits2_pos m) + e) by lia.
    fold f. lia.
Qed.


Lemma normalize_key (M e : Z) (szero : bool) :
  -1074 <= e ->
  let r := binary_normalize prec emax M e szero in
  r <> S754_nan /\ key r = normal_key M e.
Proof.
  intros He. destruct M as [ | m | m ]; cbn [binary_normalize normal_key].
  - split; [ discriminate | reflexivity ].
  - apply (binary_round_key false m e He).
  - apply (binary_round_key true m e He).
Qed.

Lemma rounded_pos (m : positive) (e : Z) :
  -1074 <= e -> 0 < Z.min (rnd (pkey m e)) key_inf.
Proof.
  intros He. pose proof (pkey_pos m e He) as HX.
  pose proof (rnd_bounds _ HX) as [B _].
  assert (0 < 2 ^ Z.log2 (pkey m e)) by (apply pow2_pos, Z.log2_nonneg).
  assert (0 < key_inf) by (apply pow2_pos; lia).
  lia.
Qed.

Lemma normal_key_mono (M1 M2 e : Z) :
  -1074 <= e -> M1 <= M2 -> normal_key M1 e <= normal_key M2 e.
Proof.
  intros He Hle.
  assert (P : forall m, 0 < Z.min (rnd (pkey m e)) key_inf)
    by (intros m; apply rounded_pos; exact He).
  assert (Q : forall m1 m2, (m1 <= m2)%positive ->
            Z.min (rnd (pkey m1 e)) key_inf <= Z.min (rnd (pkey m2 e)) key_inf).
  { intros m1 m2 H. apply Z.min_le_compat_r. apply rnd_mono.
    - apply pkey_pos; exact He.
    - unfold pkey. apply Z.mul_le_mono_nonneg_r; [ apply Z.pow_nonneg; lia | ].
      apply Pos2Z.pos_le_pos. exact H. }
  destruct M1 as [ | m1 | m1 ], M2 as [ | m2 | m2 ]; cbn [normal_key];
    try lia;
    try (pose proof (P m1)); try (pose proof (P m2)); try lia.
  - apply Q. lia.
  - assert (Z.min (rnd (pkey m2 e)) key_inf <= Z.min (rnd (pkey m1 e)) key_inf);
      [ apply Q | ]; lia.
Qed.

(** *** Subtracting a non-negative float never gives more than adding it *)

Lemma SFsub_le_SFadd (x y : spec_float) :
  valid_binary x = true -> valid_binary y = true ->
  SFleb (S754_zero false) y = true ->
  SFsub prec emax x y <> S754_nan -> SFadd prec emax x y <> S754_nan ->
  key (SFsub prec emax x y) <= key (SFadd prec emax x y).
Proof.
  intros Vx Vy Hy Ns Na.
  assert (I : 0 < key_inf) by (apply pow2_pos; lia).
  destruct y as [sy | sy | | sy my ey]; try discriminate;
    try (destruct sy; try discriminate);
    destruct x as [sx | sx | | sx mx ex]; try congruence;
    try (destruct sx); unfold SFsub, SFadd in Ns, Na |- *;
    cbn [key cond_Zopp negb] in *; try congruence; try lia;
    try (simpl in Vy; pose proof (pkey_lt_inf my ey Vy); lia).
  all: simpl in Vx, Vy.
  all: destruct (bounded_inv mx ex Vx) as [Hex _].
  all: destruct (bounded_inv my ey Vy) as [Hey _].
  all: match goal with
       | |- key (binary_normalize _ _ ?M1 ?e ?s1) <= key (binary_normalize _ _ ?M2 ?e ?s2) =>
           destruct (normalize_key M1 e s1 ltac:(lia)) as [_ ->];
           destruct (normalize_key M2 e s2 ltac:(lia)) as [_ ->];
           apply normal_key_mono; lia
       end.
Qed.

(** *** The same facts on primitive floats *)

Local Open Scope float_scope.

Lemma Prim2SF_0 : Prim2SF 0 = S754_zero false.
Proof. vm_compute. reflexivity. Qed.

Lemma Prim2SF_infinity : Prim2SF infinity = S754_infinity false.
Proof. vm_compute. reflexivity. Qed.

Lemma not_nan_spec (x : float) : is_nan x = false <-> Prim2SF x <> S754_nan.
Proof.
  unfold is_nan. rewrite eqb_spec, negb_false_iff. unfold SFeqb.
  destruct (Prim2SF x) as [s | s | | s m e]; simpl.
  - split; [ discriminate | reflexivity ].
  - split; [ discriminate | destruct s; reflexivity ].
  - split; [ discriminate | congruence ].
  - split; [ discriminate | intros _ ].
    destruct s; rewrite Z.compare_refl, Pos.compare_cont_refl; reflexivity.
Qed.

Lemma is_finite_spec (x : float) :
  is_finite x = true ->
  (exists s, Prim2SF x = S754_zero s) \/ (exists s m e, Prim2SF x = S754_finite s m e).
Proof.
  unfold is_finite. rewrite negb_true_iff, orb_false_iff. intros [Hn Hi].
  apply not_nan_spec in Hn. unfold is_infinity in Hi.
  rewrite eqb_spec, abs_spec, Prim2SF_infinity in Hi.
  destruct (Prim2SF x) as [s | s | | s m e]; try congruence; eauto.
  discriminate Hi.
Qed.

Lemma leb_key (x y : float) :
  is_nan x = false -> is_nan y = false ->
  (x <=? y) = (key (Prim2SF x) <=? key (Prim2SF y))%Z.
Proof.
  intros Hx Hy. rewrite leb_spec. unfold SFleb.
  rewrite SFcompare_key;
    [ | apply Prim2SF_valid | apply Prim2SF_valid
      | apply not_nan_spec; exact Hx | apply not_nan_spec; exact Hy ].
  unfold Z.leb. destruct (key (Prim2SF x) ?= key (Prim2SF y))%Z; reflexivity.
Qed.

Lemma leb_not_nan (x y : float) :
  (x <=? y) = true -> is_nan x = false /\ is_nan y = false.
Proof.
  rewrite leb_spec, !not_nan_spec. unfold SFleb.
  destruct (Prim2SF x), (Prim2SF y); simpl; try discriminate; split; discriminate.
Qed.

Lemma nonneg_spec (v : float) :
  is_nan v = false -> (v <? 0) = false -> SFleb (S754_zero false) (Prim2SF v) = true.
Proof.
  intros Hn Hv. rewrite <- Prim2SF_0, <- leb_spec.
  destruct (FloatFacts.ltb_or_leb v 0) as [H | H]; try congruence.
  - unfold is_nan in Hn. apply negb_false_iff. exact Hn.
  - reflexivity.
Qed.

(** For [v >= 0], [c - v <= c + v] unless one of the two is NaN. *)
Lemma sub_leb_add (c v : float) :
  is_nan v = false -> (v <? 0) = false ->
  is_nan (c - v) = false -> is_nan (c + v) = false ->
  (c - v <=? c + v) = true.
Proof.
  intros Hv Hpos Hs Ha. rewrite (leb_key _ _ Hs Ha). apply Z.leb_le.
  apply not_nan_spec in Hs, Ha. rewrite sub_spec in *. rewrite add_spec in *.
  apply SFsub_le_SFadd; try apply Prim2SF_valid; try assumption.
  apply nonneg_spec; assumption.
Qed.

(** A finite float plus or minus a float that is not NaN is not NaN. *)
Lemma finite_add_sub_not_nan (c v : float) :
  is_finite c = true -> is_nan v = false ->
  is_nan (c - v) = false /\ is_nan (c + v) = false.
Proof.
  intros Hc Hv. rewrite !not_nan_spec in *. rewrite sub_spec, add_spec.
  pose proof (Prim2SF_valid c) as Vc. pose proof (Prim2SF_valid v) as Vv.
  unfold SF64sub, SF64add.
  destruct (is_finite_spec c Hc) as [[s E] | [s [m [e E]]]]; rewrite E in *;
    destruct (Prim2SF v) as [sv | sv | | sv mv ev]; try congruence;
    unfold SFsub, SFadd; try (split; discriminate);
    try (destruct s, sv; split; discriminate).
  simpl in Vc, Vv.
  destruct (bounded_inv m e Vc) as [He _], (bounded_inv mv ev Vv) as [Hev _].
  split; apply normalize_key; lia.
Qed.

(** The sum of two non-negative floats is non-negative. *)
Lemma add_nonneg (c v : float) :
  (0 <=? c) = true -> is_nan v = false -> (v <? 0) = false ->
  is_nan (c + v) = false -> (0 <=? c + v) = true.
Proof.
  intros Hc Hv Hpos Ha.
  rewrite (leb_key 0 (c + v) eq_refl Ha). apply Z.leb_le.
  rewrite Prim2SF_0. cbn [key].
  pose proof (nonneg_spec v Hv Hpos) as Hv'.
  rewrite leb_spec, Prim2SF_0 in Hc.
  pose proof (Prim2SF_valid c) as Vc. pose proof (Prim2SF_valid v) as Vv.
  apply not_nan_spec in Ha. rewrite add_spec in *. unfold SF64add in *.
  assert (I : (0 < key_inf)%Z) by (apply pow2_pos; lia).
  destruct (Prim2SF c) as [s | s | | s m e]; try discriminate;
    try (destruct s; try discriminate);
    destruct (Prim2SF v) as [sv | sv | | sv mv ev]; try discriminate;
    try (destruct sv; try discriminate);
    unfold SFadd in *; cbn [key cond_Zopp]; try lia;
    simpl in Vc, Vv;
    try (pose proof (pkey_lt_inf m e Vc)); try (pose proof (pkey_lt_inf mv ev Vv));
    try lia.
  destruct (bounded_inv m e Vc) as [He _], (bounded_inv mv ev Vv) as [Hev _].
  cbn [cond_Zopp].
  match goal with
  | |- (0 <= key (binary_normalize _ _ ?M ?e ?s))%Z =>
      destruct (normalize_key M e s ltac:(lia)) as [_ ->];
      change 0%Z with (normal_key 0 e); apply normal_key_mono; lia
  end.
Qed.

(** *** Addition and subtraction, read on keys

    On finite floats the key is linear in the value, so the key of a sum is
    the exact sum of the keys, rounded. *)

Local Close Scope float_scope.


Lemma normal_key_round (M e : Z) :
  -1074 <= e -> normal_key M e = round_key (M * 2 ^ (e + 1074)).
Proof.
  intros He. assert (P : 0 < 2 ^ (e + 1074)) by (apply pow2_pos; lia).
  destruct (2 ^ (e + 1074)) as [ | c | c ] eqn:E; try lia.
  destruct M as [ | m | m ]; cbn [normal_key]; try reflexivity;
    unfold pkey; rewrite E; reflexivity.
Qed.

Lemma round_key_mono (X1 X2 : Z) : X1 <= X2 -> round_key X1 <= round_key X2.
Proof.
  intros Hle.
  assert (I : 0 < key_inf) by (apply pow2_pos; lia).
  assert (P : forall X, 0 < X -> 0 < Z.min (rnd X) key_inf).
  { intros X HX. pose proof (rnd_bounds X HX) as [B _].
    assert (0 < 2 ^ Z.log2 X) by (apply pow2_pos, Z.log2_nonneg). lia. }
  assert (Q : forall A B, 0 < A -> A <= B ->
            Z.min (rnd A) key_inf <= Z.min (rnd B) key_inf).
  { intros A B HA HAB. apply Z.min_le_compat_r, rnd_mono; assumption. }
  destruct X1 as [ | p1 | p1 ], X2 as [ | p2 | p2 ]; cbn [round_key]; try lia.
  - pose proof (P (Zpos p2)). lia.
  - apply Q; lia.
  - pose proof (P (Zpos p1)). lia.
  - pose proof (P (Zpos p1)). pose proof (P (Zpos p2)). lia.
  - assert (Z.min (rnd (Zpos p2)) key_inf <= Z.min (rnd (Zpos p1)) key_inf);
      [ apply Q | ]; lia.
Qed.

Lemma round_key_opp (X : Z) : round_key (- X) = - round_key X.
Proof. destruct X; cbn [round_key Z.opp]; lia. Qed.

Lemma round_key_exact (m : positive) (e : Z) :
  bounded prec emax m e = true -> round_key (pkey m e) = pkey m e.
Proof.
  intros V. destruct (bounded_inv m e V) as [He [Hd _]].
  pose proof (pkey_lt_inf m e V) as B.
  pose proof (rnd_exact m e ltac:(lia) Hd) as E.
  destruct (pkey m e) as [ | p | p ] eqn:Ep; try lia.
  cbn [round_key]. lia.
Qed.

Lemma aligned_key (m : positive) (e ez : Z) :
  -1074 <= ez -> ez <= e ->
  Zpos (fst (shl_align m e ez)) * 2 ^ (ez + 1074) = pkey m e.
Proof.
  intros Hez Hle. unfold shl_align, pkey.
  destruct (ez - e) as [ | d | d ] eqn:Ed; cbn [fst]; try lia.
  - replace ez with e by lia. reflexivity.
  - destruct (digits2_shift m d) as [_ ->].
    rewrite <- Z.mul_assoc, <- Z.pow_add_r by lia. f_equal. f_equal. lia.
Qed.


Lemma signed_aligned_key (s : bool) (m : positive) (e ez : Z) :
  -1074 <= ez -> ez <= e ->
  cond_Zopp s (Zpos (fst (shl_align m e ez))) * 2 ^ (ez + 1074)
  = key (S754_finite s m e).
Proof.
  intros Hez Hle. cbn [key]. rewrite <- (aligned_key m e ez Hez Hle).
  destruct s; cbn [cond_Zopp]; lia.
Qed.

Lemma SFadd_sub_key (x y : spec_float) :
  valid_binary x = true -> valid_binary y = true ->
  is_finite_SF x = true -> is_finite_SF y = true ->
  key (SFadd prec emax x y) = round_key (key x + key y)
  /\ key (SFsub prec emax x y) = round_key (key x - key y).
Proof.
  intros Vx Vy Fx Fy.
  destruct x as [sx | sx | | sx mx ex]; try discriminate;
    destruct y as [sy | sy | | sy my ey]; try discriminate;
    simpl in Vx, Vy; unfold SFadd, SFsub.
  - destruct sx, sy; split; reflexivity.
  - cbn [key]. rewrite Z.add_0_l, Z.sub_0_l.
    destruct sy; cbn [cond_Zopp negb]; rewrite ?round_key_opp, ?Z.opp_involutive;
      rewrite (round_key_exact my ey Vy); split; reflexivity.
  - cbn [key]. rewrite Z.add_0_r, Z.sub_0_r.
    destruct sx; cbn [cond_Zopp]; rewrite ?round_key_opp;
      rewrite (round_key_exact mx ex Vx); split; reflexivity.
  - destruct (bounded_inv mx ex Vx) as [Hex _].
    destruct (bounded_inv my ey Vy) as [Hey _].
    set (ez := Z.min ex ey).
    assert (Hez : -1074 <= ez) by (unfold ez; lia).
    rewrite <- (signed_aligned_key sx mx ex ez Hez ltac:(unfold ez; lia)).
    rewrite <- (signed_aligned_key sy my ey ez Hez ltac:(unfold ez; lia)).
    rewrite <- Z.mul_add_distr_r, <- Z.mul_sub_distr_r.
    rewrite <- !(normal_key_round _ ez Hez).
    split; apply normalize_key; exact Hez.
Qed.

Local Open Scope float_scope.

Lemma eqb_key (x y : float) :
  is_nan x = false -> is_nan y = false ->
  (x =? y) = (key (Prim2SF x) =? key (Prim2SF y))%Z.
Proof.
  intros Hx Hy. rewrite eqb_spec. unfold SFeqb.
  rewrite SFcompare_key;
    [ | apply Prim2SF_valid | apply Prim2SF_valid
      | apply not_nan_spec; exact Hx | apply not_nan_spec; exact Hy ].
  unfold Z.eqb. destruct (key (Prim2SF x) ?= key (Prim2SF y))%Z eqn:E;
    try reflexivity.
  - apply Z.compare_eq in E. rewrite E.
    destruct (key (Prim2SF y)); try reflexivity; rewrite Pos.eqb_refl; reflexivity.
  - destruct (key (Prim2SF x)), (key (Prim2SF y)); try reflexivity; try discriminate;
      simpl in E; symmetry; apply Pos.eqb_neq; intros ->;
      rewrite ?Pos.compare_refl in E; discriminate.
  - destruct (key (Prim2SF x)), (key (Prim2SF y)); try reflexivity; try discriminate;
      simpl in E; symmetry; apply Pos.eqb_neq; intros ->;
      rewrite ?Pos.compare_refl in E; discriminate.
Qed.

Lemma is_finite_SF_spec (x : float) :
  is_finite x = true <-> is_finite_SF (Prim2SF x) = true.
Proof.
  split.
  - intros H. destruct (is_finite_spec x H) as [[s ->] | [s [m [e ->]]]]; reflexivity.
  - intros H. unfold is_finite, is_nan, is_infinity.
    rewrite !eqb_spec, abs_spec, Prim2SF_infinity.
    destruct (Prim2SF x) as [s | s | | s m e]; try discriminate.
    + reflexivity.
    + unfold SFeqb. simpl. destruct s; rewrite Z.compare_refl, Pos.compare_cont_refl;
        reflexivity.
Qed.

(** Float addition and subtraction of finite floats, on keys. *)
Lemma add_sub_key (x y : float) :
  is_finite x = true -> is_finite y = true ->
  key (Prim2SF (x + y)) = round_key (key (Prim2SF x) + key (Prim2SF y))
  /\ key (Prim2SF (x - y)) = round_key (key (Prim2SF x) - key (Prim2SF y)).
Proof.
  intros Hx Hy. rewrite add_spec, sub_spec.
  apply SFadd_sub_key; try apply Prim2SF_valid; apply is_finite_SF_spec; assumption.
Qed.

(** *** Where the default interval collapses *)

Lemma key_of_one : key (Prim2SF 1) = key_one.
Proof. vm_compute. reflexivity. Qed.

Lemma key_of_half_ulp : key (Prim2SF 0x1p-54) = key_half_ulp.
Proof. vm_compute. reflexivity. Qed.

Lemma round_near_one :
  round_key (key_one - key_half_ulp) = key_one
  /\ round_key key_one = key_one
  /\ round_key (key_one + key_half_ulp) = key_one
  /\ (round_key (key_one - key_half_ulp - 1) < key_one)%Z.
Proof. vm_compute. repeat split. Qed.

Lemma collapse_keys (Kv : Z) :
  (0 <= Kv)%Z ->
  ((round_key (key_one - Kv) =? key_one) && (round_key (key_one + Kv) =? key_one))%Z
  = (Kv <=? key_half_ulp)%Z.
Proof.
  intros H0. destruct round_near_one as [E1 [E2 [E3 E4]]].
  destruct (Z.leb_spec Kv key_half_ulp) as [Hle | Hgt].
  - pose proof (round_key_mono (key_one - key_half_ulp) (key_one - Kv) ltac:(lia)).
    pose proof (round_key_mono (key_one - Kv) key_one ltac:(lia)).
    pose proof (round_key_mono key_one (key_one + Kv) ltac:(lia)).
    pose proof (round_key_mono (key_one + Kv) (key_one + key_half_ulp) ltac:(lia)).
    apply andb_true_iff. split; apply Z.eqb_eq; lia.
  - pose proof (round_key_mono (key_one - Kv) (key_one - key_half_ulp - 1) ltac:(lia)).
    apply andb_false_iff. left. apply Z.eqb_neq. lia.
Qed.

Lemma key_nonneg (v : float) :
  is_nan v = false -> (v <? 0) = false -> (0 <= key (Prim2SF v))%Z.
Proof.
  intros Hn Hv. pose proof (nonneg_spec v Hn Hv) as H.
  rewrite <- Prim2SF_0, <- leb_spec in H.
  rewrite (leb_key 0 v eq_refl Hn), Prim2SF_0 in H. apply Z.leb_le in H. exact H.
Qed.

Lemma nonneg_not_finite (v : float) :
  is_nan v = false -> (v <? 0) = false -> is_finite v = false -> v = infinity.
Proof.
  intros Hn Hv Hf. pose proof (nonneg_spec v Hn Hv) as H.
  apply Prim2SF_inj. rewrite Prim2SF_infinity.
  destruct (is_finite v) eqn:E; [ discriminate | ].
  assert (F : is_finite_SF (Prim2SF v) = false).
  { destruct (is_finite_SF (Prim2SF v)) eqn:E'; [ | reflexivity ].
    apply is_finite_SF_spec in E'. congruence. }
  apply not_nan_spec in Hn.
  destruct (Prim2SF v) as [s | s | | s m e]; try discriminate; try congruence.
  destruct s; [ discriminate | reflexivity ].
Qed.

(** With the defaults, both ends round to [1.0] exactly when [v <= 2^-54]. *)
Lemma collapse_threshold (v : float) :
  is_nan v = false -> (v <? 0) = false ->
  (1 - v =? 1) && (1 + v =? 1) = (v <=? 0x1p-54).
Proof.
  intros Hn Hv. destruct (is_finite v) eqn:Hf.
  - destruct (finite_add_sub_not_nan 1 v eq_refl Hn) as [Ns Na].
    destruct (add_sub_key 1 v eq_refl Hf) as [Ka Ks].
    rewrite (eqb_key (1 - v) 1 Ns eq_refl), (eqb_key (1 + v) 1 Na eq_refl).
    rewrite (leb_key v 0x1p-54 Hn eq_refl).
    rewrite Ka, Ks, key_of_one, key_of_half_ulp.
    apply collapse_keys, key_nonneg; assumption.
  - rewrite (nonneg_not_finite v Hn Hv Hf). vm_compute. reflexivity.
Qed.

Local Close Scope Z_scope.

(** ** [ColorJitter._check_input] *)

Section CheckInput.
Import ColorJitter.

(** *** Concrete inputs *)

Example check_input_02 :
  check_input_default (VFloat 0.2) "brightness" = Ok (Some (1 - 0.2, 1 + 0.2)).
Proof. reflexivity. Qed.

Example check_input_3 :
  check_input_default (VFloat 3) "brightness" = Ok (Some (0, 4)).
Proof. reflexivity. Qed.

Example check_input_0 : check_input_default (VFloat 0) "brightness" = Ok None.
Proof. reflexivity. Qed.

Example check_input_pair_05_15 :
  check_input_default (VSeq [0.5; 1.5]) "contrast" = Ok (Some (0.5, 1.5)).
Proof. reflexivity. Qed.

Example check_input_hue_pair :
  _check_input (VSeq [-0.05; 0.05]) "hue" 0 (-0.5, 0.5) false
  = Ok (Some (-0.05, 0.05)).
Proof. reflexivity. Qed.

Example check_input_nan :
  check_input_default (VFloat nan) "brightness" = Ok (Some (nan, nan)).
Proof. reflexivity. Qed.

(** ** C2: ordered pairs inside the bound *)

(** C2.  For a two-element sequence [(lo, hi)] with
    [bound.low <= lo <= hi <= bound.high], [_check_input] returns [(lo, hi)]
    unchanged, except when [lo == hi == center], where it returns [None]. *)
Theorem check_input_pair_in_bound
    (lo hi : float) (name : string) (center : float) (bound : float * float)
    (clip : bool) :
  (fst bound <=? lo) = true -> (lo <=? hi) = true -> (hi <=? snd bound) = true ->
  _check_input (VSeq [lo; hi]) name center bound clip
  = if (lo =? hi) && (hi =? center) then Ok None else Ok (Some (lo, hi)).
Proof.
  intros Hlow Hord Hhigh. unfold _check_input, within_bound.
  rewrite Hlow, Hord, Hhigh. simpl. unfold finish, collapses.
  destruct ((lo =? hi) && (hi =? center)); reflexivity.
Qed.

Lemma check_input_pair_in_bound_witness :
  _check_input (VSeq [0.5; 1.5]) "contrast" 1 (0, infinity) true
  = if (0.5 =? 1.5) && (1.5 =? 1) then Ok None else Ok (Some (0.5, 1.5)).
Proof.
  apply (check_input_pair_in_bound 0.5 1.5 "contrast" 1 (0, infinity) true);
    reflexivity.
Defined.

(** ** C3: malformed inputs *)

(** C3.  [_check_input] raises on every malformed input (a negative single
    float, a misordered or out-of-bound pair, a sequence whose length is not
    2, a string, any value that is not [None], a float or a two-element
    sequence), and returns [None] for [None]. *)
Theorem check_input_malformed
    (name : string) (center : float) (bound : float * float) (clip : bool) :
  (forall v, (v <? 0) = true ->
     _check_input (VFloat v) name center bound clip
     = Raise (ValueError_non_negative name))
  /\ _check_input (VFloat (-0.1)) name center bound clip
     = Raise (ValueError_non_negative name)
  /\ (forall lo hi, (hi <? lo) = true ->
     _check_input (VSeq [lo; hi]) name center bound clip
     = Raise (ValueError_between name bound))
  /\ _check_input (VSeq [0.6; 0.4]) name center bound clip
     = Raise (ValueError_between name bound)
  /\ (forall lo hi, within_bound bound lo hi = false ->
     _check_input (VSeq [lo; hi]) name center bound clip
     = Raise (ValueError_between name bound))
  /\ (forall a b c rest,
     _check_input (VSeq (a :: b :: c :: rest)) name center bound clip
     = Raise (TypeError_shape name))
  /\ (forall s, exists e,
     _check_input (VStr s) name center bound clip = Raise e
     /\ is_TypeError e = true)
  /\ (forall value,
     value <> VNone -> (forall v, value <> VFloat v) ->
     is_sequence_of_len_2 value = false ->
     _check_input value name center bound clip = Raise (TypeError_shape name))
  /\ _check_input VNone name center bound clip = Ok None.
Proof.
  assert (Hout : forall lo hi, within_bound bound lo hi = false ->
     _check_input (VSeq [lo; hi]) name center bound clip
     = Raise (ValueError_between name bound)).
  { intros lo hi H. simpl. rewrite H. reflexivity. }
  assert (Hmis : forall lo hi, (hi <? lo) = true ->
     _check_input (VSeq [lo; hi]) name center bound clip
     = Raise (ValueError_between name bound)).
  { intros lo hi H. apply Hout. unfold within_bound.
    rewrite (FloatFacts.ltb_leb_false _ _ H).
    rewrite andb_false_r. reflexivity. }
  repeat split.
  - intros v H. simpl. rewrite H. reflexivity.
  - exact Hmis.
  - apply Hmis. reflexivity.
  - exact Hout.
  - intros s. destruct s as [ | c1 [ | c2 [ | c3 s ] ] ]; simpl;
      eexists; split; reflexivity.
  - intros value HN HF HS.
    destruct value as [ | v | xs | s | z | ]; try reflexivity.
    + congruence.
    + specialize (HF v). congruence.
    + destruct xs as [ | a [ | b [ | c xs ] ] ]; try reflexivity.
      discriminate HS.
    + destruct s as [ | c1 [ | c2 [ | c3 s ] ] ]; try reflexivity.
      discriminate HS.
Qed.


(** ** C1: a single non-negative float with the defaults *)

Lemma Prim2SF_one : Prim2SF 1 = S754_finite false 4503599627370496 (-52).
Proof. vm_compute. reflexivity. Qed.

Lemma eqb_one (x : float) : (x =? 1) = true -> x = 1.
Proof.
  rewrite eqb_spec. intros H. apply Prim2SF_inj.
  rewrite Prim2SF_one in *.
  destruct (Prim2SF x) as [s | s | | s m e]; try discriminate;
    try (destruct s; discriminate).
  unfold SFeqb in H. cbn [SFcompare] in H. destruct s; try discriminate.
  destruct (Z.compare e (-52)) eqn:E; try discriminate.
  apply Z.compare_eq in E. subst e.
  destruct (Pos.compare_cont Eq m 4503599627370496) eqn:E; try discriminate.
  apply Pos.compare_eq in E. subst m. reflexivity.
Qed.

Lemma negative_not_one (x : float) : (x <? 0) = true -> (x =? 1) = false.
Proof.
  rewrite ltb_spec, eqb_spec, Prim2SF_one, Prim2SF_0.
  destruct (Prim2SF x) as [s | s | | s m e]; try discriminate;
    destruct s; try discriminate; reflexivity.
Qed.

(** With the defaults the interval collapses exactly when both ends round
    to [1.0]. *)
Lemma collapses_default (v : float) :
  collapses 1 (Py.max (1 - v) 0) (1 + v) = (1 - v =? 1) && (1 + v =? 1).
Proof.
  unfold collapses, Py.max.
  destruct (1 + v =? 1) eqn:Hhi.
  - apply eqb_one in Hhi. rewrite Hhi. rewrite !andb_true_r.
    destruct (1 - v <? 0) eqn:Hneg; [ | reflexivity ].
    rewrite (negative_not_one _ Hneg). reflexivity.
  - rewrite !andb_false_r. reflexivity.
Qed.

(** C1 (amended).  For a float [v] with [0 <= v] and the defaults,
    [_check_input] never raises; it returns [None] when [v <= 2^-54], where
    [1 - v] and [1 + v] both round to [1.0] (so in particular for [v == 0]),
    and the pair [(max(1 - v, 0), 1 + v)] otherwise. *)
Theorem check_input_single_default (v : float) (name : string) :
  (0 <=? v) = true ->
  check_input_default (VFloat v) name
  = (if v <=? 0x1p-54 then Ok None
     else Ok (Some (Py.max (1 - v) 0, 1 + v)))
  /\ ((v =? 0) = true -> check_input_default (VFloat v) name = Ok None).
Proof.
  intros Hv.
  destruct (leb_not_nan _ _ Hv) as [_ Hn].
  pose proof (FloatFacts.leb_ltb_false _ _ Hv) as Hneg.
  assert (E : check_input_default (VFloat v) name
              = if v <=? 0x1p-54 then Ok None
                else Ok (Some (Py.max (1 - v) 0, 1 + v))).
  { unfold check_input_default, _check_input, default_center.
    rewrite Hneg. unfold finish.
    rewrite collapses_default, (collapse_threshold v Hn Hneg).
    destruct (v <=? 0x1p-54); reflexivity. }
  split; [ exact E | ].
  intros Hz. rewrite E.
  destruct (FloatFacts.eqb_zero _ Hz) as [-> | ->]; vm_compute; reflexivity.
Qed.

Lemma check_input_single_default_witness :
  check_input_default (VFloat 0.2) "brightness"
  = (if 0.2 <=? 0x1p-54 then Ok None
     else Ok (Some (Py.max (1 - 0.2) 0, 1 + 0.2)))
  /\ ((0.2 =? 0) = true -> check_input_default (VFloat 0.2) "brightness" = Ok None).
Proof.
  apply (check_input_single_default 0.2 "brightness"). vm_compute. reflexivity.
Defined.

(** The threshold is sharp: at [2^-54] the result is [None], at the next
    float above it the lower end is the float just below [1.0]. *)
Example check_input_at_threshold :
  check_input_default (VFloat 0x1p-54) "brightness" = Ok None
  /\ check_input_default (VFloat 0x1.0000000000001p-54) "brightness"
     = Ok (Some (0x1.fffffffffffffp-1, 1)).
Proof. vm_compute. split; reflexivity. Qed.

(** C1, as stated, fails at [v = 2^-60]: [v] is positive, yet [1 - v] and
    [1 + v] both round to [1.0] and the function returns [None], not the
    pair [(1.0, 1.0)]. *)
Lemma check_input_tiny_counterexample :
  (0 <=? 0x1p-60) = true
  /\ (0x1p-60 =? 0) = false
  /\ check_input_default (VFloat 0x1p-60) "brightness" = Ok None
  /\ check_input_default (VFloat 0x1p-60) "brightness"
     <> Ok (Some (Py.max (1 - 0x1p-60) 0, 1 + 0x1p-60)).
Proof. vm_compute. repeat split. discriminate. Qed.

(** ** C4: what the returned pair satisfies *)

(** The shape of every successful non-[None] result. *)
Lemma check_input_some_inv
    (value : Py.value) (name : string) (center : float) (bound : float * float)
    (clip : bool) (lo hi : float) :
  _check_input value name center bound clip = Ok (Some (lo, hi)) ->
  (exists v, value = VFloat v /\ (v <? 0) = false
             /\ lo = (if clip then Py.max (center - v) 0 else center - v)
             /\ hi = center + v)
  \/ (value = VSeq [lo; hi] /\ within_bound bound lo hi = true).
Proof.
  destruct value as [ | v | xs | s | z | ]; simpl; try discriminate.
  - destruct (v <? 0) eqn:Hv; try discriminate.
    unfold finish. destruct (collapses _ _ _); try discriminate.
    intros H. injection H as <- <-. left. exists v. auto.
  - destruct xs as [ | a [ | b [ | c xs ] ] ]; try discriminate.
    destruct (within_bound bound a b) eqn:Hb; simpl; try discriminate.
    unfold finish. destruct (collapses _ _ _); try discriminate.
    intros H. injection H as <- <-. right. auto.
  - destruct s as [ | c1 [ | c2 [ | c3 s ] ] ]; discriminate.
Qed.

(** C4, as stated, fails for a negative centre with the clamp set: the lower
    end is clipped to 0 while the upper end stays negative. *)
Lemma check_input_negative_center_counterexample :
  _check_input (VFloat 1) "brightness" (-5) default_bound true
  = Ok (Some (0, -4))
  /\ (0 <=? -4) = false.
Proof. vm_compute. split; reflexivity. Qed.

(** It also fails on NaN, which is a float that is not negative. *)
Example check_input_nan_unordered :
  check_input_default (VFloat nan) "brightness" = Ok (Some (nan, nan))
  /\ (nan <=? nan) = false /\ (0 <=? nan) = false.
Proof. vm_compute. repeat split. Qed.

(** C4 (amended).  A non-[None] pair returned for a two-element sequence
    satisfies [low <= high].  For a single float [v] that is not NaN and a
    finite [center], the returned pair satisfies [low <= high] provided the
    clamp is unset or [center >= 0], and under the clamp its lower end is
    [>= 0]. *)
Theorem check_input_ordered
    (value : Py.value) (name : string) (center : float) (bound : float * float)
    (clip : bool) (lo hi : float) :
  _check_input value name center bound clip = Ok (Some (lo, hi)) ->
  (forall a b, value = VSeq [a; b] -> (lo <=? hi) = true)
  /\ (forall v, value = VFloat v ->
        is_nan v = false -> is_finite center = true ->
        (clip = true -> (0 <=? center) = true) ->
        (lo <=? hi) = true)
  /\ (forall v, value = VFloat v ->
        is_nan v = false -> is_finite center = true -> clip = true ->
        (0 <=? lo) = true).
Proof.
  intros H. apply check_input_some_inv in H.
  destruct H as [[v [-> [Hv [-> ->]]]] | [-> Hb]].
  - split; [ intros a b; discriminate | split ].
    + intros v' [= <-] Hn Hc Hpos.
      destruct (finite_add_sub_not_nan center v Hc Hn) as [Ns Na].
      pose proof (sub_leb_add center v Hn Hv Ns Na) as Hord.
      destruct clip; [ | exact Hord ].
      unfold Py.max. destruct (center - v <? 0); [ | exact Hord ].
      apply add_nonneg; auto.
    + intros v' [= <-] Hn Hc ->.
      destruct (finite_add_sub_not_nan center v Hc Hn) as [Ns _].
      unfold Py.max. destruct (center - v <? 0) eqn:Hneg; [ reflexivity | ].
      destruct (FloatFacts.ltb_or_leb (center - v) 0) as [H | H];
        try congruence; try reflexivity.
      unfold is_nan in Ns. apply negb_false_iff. exact Ns.
  - split; [ | split; intros v; discriminate ].
    intros _ _ _. unfold within_bound in Hb.
    apply andb_prop in Hb as [Hb _]. apply andb_prop in Hb as [_ Hb]. exact Hb.
Qed.

Lemma check_input_ordered_witness :
  (forall a b, VFloat 3 = VSeq [a; b] -> (0 <=? 4) = true)
  /\ (forall v, VFloat 3 = VFloat v ->
        is_nan v = false -> is_finite 1 = true ->
        (true = true -> (0 <=? 1) = true) ->
        (0 <=? 4) = true)
  /\ (forall v, VFloat 3 = VFloat v ->
        is_nan v = false -> is_finite 1 = true -> true = true ->
        (0 <=? 0) = true).
Proof.
  apply (check_input_ordered (VFloat 3) "brightness" 1 default_bound true 0 4).
  vm_compute. reflexivity.
Defined.

End CheckInput.

(** ** [ColorJitter._transform] *)

Local Close Scope float_scope.

Section JitterProperties.
Import ColorJitter.
Context {C : Carriers} {K : Kernels}.

Lemma jitter_step_op_at (params : Params) (output : input) (i : nat) :
  jitter_step params output i
  = match op_at params i with
    | Some op => run_op output op
    | None => output
    end.
Proof.
  unfold jitter_step.
  destruct i as [ | [ | [ | [ | i ] ] ] ]; simpl;
    destruct (brightness_factor params), (contrast_factor params),
             (saturation_factor params), (hue_factor params);
    reflexivity.
Qed.

Lemma fold_jitter_steps (params : Params) (idx : list nat) (inpt : input) :
  fold_left (jitter_step params) idx inpt
  = fold_left run_op
      (flat_map (fun i => match op_at params i with
                          | Some op => [op]
                          | None => []
                          end) idx)
      inpt.
Proof.
  revert inpt. induction idx as [ | i idx IH ]; intros inpt; simpl.
  - reflexivity.
  - rewrite fold_left_app, IH, jitter_step_op_at.
    destruct (op_at params i); reflexivity.
Qed.

Lemma op_at_index (params : Params) (i : nat) (op : pixel_op) :
  op_at params i = Some op -> op_index op = i.
Proof.
  destruct i as [ | [ | [ | [ | i ] ] ] ]; simpl; try discriminate.
  - destruct (brightness_factor params); simpl; intros [= <-]; reflexivity.
  - destruct (contrast_factor params); simpl; intros [= <-]; reflexivity.
  - destruct (saturation_factor params); simpl; intros [= <-]; reflexivity.
  - destruct (hue_factor params); simpl; intros [= <-]; reflexivity.
Qed.

Lemma in_enabled_ops (params : Params) (op : pixel_op) :
  In op (enabled_ops params)
  <-> In (op_index op) (fn_idx params) /\ op_at params (op_index op) = Some op.
Proof.
  unfold enabled_ops. rewrite in_flat_map. split.
  - intros [i [Hi Hop]].
    destruct (op_at params i) as [op' | ] eqn:E; [ | contradiction ].
    destruct Hop as [-> | []].
    rewrite (op_at_index _ _ _ E). auto.
  - intros [Hi Hop]. exists (op_index op). rewrite Hop. simpl. auto.
Qed.

Lemma enabled_ops_indices (params : Params) :
  map op_index (enabled_ops params)
  = filter (is_enabled params) (fn_idx params).
Proof.
  unfold enabled_ops, is_enabled.
  induction (fn_idx params) as [ | i idx IH ]; simpl.
  - reflexivity.
  - rewrite map_app, IH.
    destruct (op_at params i) as [op | ] eqn:E; simpl.
    + rewrite (op_at_index _ _ _ E). reflexivity.
    + reflexivity.
Qed.

Lemma op_index_lt_4 (op : pixel_op) : In (op_index op) [0; 1; 2; 3].
Proof. destruct op; simpl; auto. Qed.

(** C5.  With [fn_idx] a permutation of the indices 0..3,
    [ColorJitter._transform] applies exactly the operations whose factor is not [None], each at most
    once, in the order in which their indices occur in [fn_idx], and returns
    its input when every factor is [None]. *)
Theorem ColorJitter_transform_enabled_ops (inpt : input) (params : Params) :
  Permutation (fn_idx params) [0; 1; 2; 3] ->
  ColorJitter._transform inpt params
  = fold_left run_op (enabled_ops params) inpt
  /\ (forall op, In op (enabled_ops params)
                 <-> op_at params (op_index op) = Some op)
  /\ NoDup (map op_index (enabled_ops params))
  /\ map op_index (enabled_ops params)
     = filter (is_enabled params) (fn_idx params)
  /\ (brightness_factor params = None -> contrast_factor params = None ->
      saturation_factor params = None -> hue_factor params = None ->
      ColorJitter._transform inpt params = inpt).
Proof.
  intros Hperm. split; [ | split; [ | split; [ | split ] ] ].
  - apply fold_jitter_steps.
  - intros op. split.
    + intros H. apply in_enabled_ops in H. tauto.
    + intros H. apply in_enabled_ops. split; [ | exact H ].
      apply (Permutation_in _ (Permutation_sym Hperm)), op_index_lt_4.
  - rewrite enabled_ops_indices. apply NoDup_filter.
    apply (Permutation_NoDup (Permutation_sym Hperm)).
    repeat constructor; simpl; intuition discriminate.
  - apply enabled_ops_indices.
  - intros Hb Hc Hs Hh. unfold ColorJitter._transform.
    rewrite fold_jitter_steps.
    assert (E : forall i, op_at params i = None).
    { intros [ | [ | [ | [ | i ] ] ] ]; simpl;
        rewrite ?Hb, ?Hc, ?Hs, ?Hh; reflexivity. }
    clear Hperm. induction (fn_idx params) as [ | i idx IH ]; simpl.
    + reflexivity.
    + rewrite E. simpl. apply IH.
Qed.

(** The loop never assumes a permutation: whatever [fn_idx] holds, the result
    is the input when every factor is [None]. *)
Lemma ColorJitter_transform_all_none (inpt : input) (idx : list nat) :
  ColorJitter._transform inpt (mkParams idx None None None None) = inpt.
Proof.
  unfold ColorJitter._transform. rewrite fold_jitter_steps. simpl.
  induction idx as [ | [ | [ | [ | [ | i ] ] ] ] idx IH ]; simpl; auto.
Qed.

End JitterProperties.

Section JitterRuns.
Import ColorJitter.
Import Demo.

Lemma ColorJitter_transform_enabled_ops_witness :
  let params :=
    mkParams [3; 1; 0; 2] (Some 1.1%float) None (Some 0.9%float) None in
  let inpt := Demo.journal [] in
  ColorJitter._transform inpt params
  = fold_left run_op (enabled_ops params) inpt
  /\ (forall op, In op (enabled_ops params)
                 <-> op_at params (op_index op) = Some op)
  /\ NoDup (map op_index (enabled_ops params))
  /\ map op_index (enabled_ops params)
     = filter (is_enabled params) (fn_idx params)
  /\ (brightness_factor params = None -> contrast_factor params = None ->
      saturation_factor params = None -> hue_factor params = None ->
      ColorJitter._transform inpt params = inpt).
Proof.
  apply ColorJitter_transform_enabled_ops.
  simpl.
  apply (perm_trans (l' := [1; 0; 2; 3])).
  - apply (Permutation_cons_app [1; 0; 2] [] 3). reflexivity.
  - apply perm_swap.
Defined.

(** In the journal world the run above shows the calls: brightness first
    (index 0 comes before index 2 in [fn_idx]), then saturation. *)
Example ColorJitter_transform_journal :
  ColorJitter._transform (Demo.journal [])
    (mkParams [3; 1; 0; 2] (Some 1.1%float) None (Some 0.9%float) None)
  = Demo.journal [Demo.CallBrightness 1.1%float; Demo.CallSaturation 0.9%float].
Proof. reflexivity. Qed.

End JitterRuns.

(** ** [ColorJitter(brightness=0.2)] *)

Section BrightnessOnly.
Import ColorJitter.
Context {C : Carriers} {K : Kernels}.

Lemma brightness_only_init :
  ColorJitter.__init__ (VFloat 0.2) VNone VNone VNone = Ok brightness_only.
Proof. vm_compute. reflexivity. Qed.

(** With only a brightness factor, every kernel call is a brightness call
    with that factor. *)
Lemma brightness_only_ops (idx : list nat) (b : float) :
  Forall (fun op => op = Brightness b)
         (enabled_ops (mkParams idx (Some b) None None None)).
Proof.
  unfold enabled_ops. simpl.
  induction idx as [ | [ | [ | [ | [ | i ] ] ] ] idx IH ]; simpl; auto.
Qed.

(** C6.  [ColorJitter(brightness=0.2)] is built without error with
    [contrast], [saturation] and [hue] set to [None]; on every input and
    every state of the generator, the three factors are sampled as [None] and
    the output is the input after a sequence of kernel calls that are all
    [adjust_brightness]. *)
Theorem ColorJitter_brightness_only (inpt : input) (g : rng) :
  exists self,
    ColorJitter.__init__ (VFloat 0.2) VNone VNone VNone = Ok self
    /\ contrast self = None
    /\ saturation self = None
    /\ hue self = None
    /\ exists params g' b,
         ColorJitter._get_params self inpt g = Ok (params, g')
         /\ brightness_factor params = Some b
         /\ contrast_factor params = None
         /\ saturation_factor params = None
         /\ hue_factor params = None
         /\ ColorJitter.forward self inpt g
            = Ok (fold_left run_op (enabled_ops params) inpt, g')
         /\ Forall (fun op => op = Brightness b) (enabled_ops params).
Proof.
  exists brightness_only. split; [ apply brightness_only_init | ].
  repeat (split; [ reflexivity | ]).
  unfold ColorJitter.forward, ColorJitter._get_params, brightness_only,
    bind, draw, ret, sample_factor, _generate_value;
    cbn [brightness contrast saturation hue].
  unfold bind, draw, ret.
  destruct (randperm 4 g) as [idx g1].
  destruct (uniform_sample (1 - 0.2)%float (1 + 0.2)%float g1) as [b g2].
  exists (mkParams idx (Some b) None None None), g2, b.
  repeat (split; [ reflexivity | ]).
  split.
  - unfold ColorJitter._transform. rewrite fold_jitter_steps. reflexivity.
  - apply brightness_only_ops.
Qed.

End BrightnessOnly.

Section BrightnessOnlyRun.
Import ColorJitter.
Import Demo.

(** A run in the journal world: the only recorded call is brightness. *)
Example ColorJitter_brightness_only_journal :
  ColorJitter.forward brightness_only (journal []) [0.5%float]
  = Ok (journal [CallBrightness 1], []).
Proof. vm_compute. reflexivity. Qed.

End BrightnessOnlyRun.

(** ** [_RandomChannelShuffle._transform] *)

Section ShuffleProperties.
Import _RandomChannelShuffle.
Context {C : Carriers} {K : Kernels}.

(** C7.  An input that is neither a [features.Image], a PIL image nor a plain
    tensor is returned as it is, without error, whatever the permutation. *)
Theorem Shuffle_transform_non_image (inpt : input) (permutation : list nat) :
  isinstance_Image inpt = false ->
  isinstance_PIL inpt = false ->
  is_simple_tensor inpt = false ->
  _RandomChannelShuffle._transform inpt permutation = Ok inpt.
Proof.
  intros HI HP HT. unfold _RandomChannelShuffle._transform.
  rewrite HI, HP, HT. reflexivity.
Qed.

Lemma index_channels_201 (im : chw) :
  has_3_channels im = true ->
  index_channels [2; 0; 1] im = Some (reorder_201 im).
Proof.
  destruct im as [ | c0 [ | c1 [ | c2 [ | c3 im ] ] ] ]; try discriminate.
  reflexivity.
Qed.

Lemma traverse_all {A B} (f : A -> option B) (g : A -> B) (l : list A) :
  Forall (fun a => f a = Some (g a)) l -> traverse f l = Some (map g l).
Proof.
  induction 1 as [ | a l Ha Hl IH ]; simpl.
  - reflexivity.
  - rewrite Ha, IH. reflexivity.
Qed.

Lemma index_select_201 (t : tensor) :
  batch_all has_3_channels t = true ->
  index_select [2; 0; 1] t = Some (batch_map reorder_201 t).
Proof.
  unfold index_select.
  induction t as [ im | l IH ] using batch_nested_ind; simpl; intros H.
  - rewrite (index_channels_201 im H). reflexivity.
  - rewrite (traverse_all _ (batch_map reorder_201)); [ reflexivity | ].
    rewrite forallb_forall in H. rewrite Forall_forall in IH |- *.
    intros t Ht. apply IH; auto.
Qed.

(** Channel [k] of the reordered image is channel [[2; 0; 1][k]] of the
    original: the whole plane, hence every pixel of it. *)
Lemma reorder_201_channel (im : chw) (k : nat) :
  has_3_channels im = true -> k < 3 ->
  nth_error (reorder_201 im) k = nth_error im (nth k [2; 0; 1] 0).
Proof.
  destruct im as [ | c0 [ | c1 [ | c2 [ | c3 im ] ] ] ]; try discriminate.
  intros _ Hk. destruct k as [ | [ | [ | k ] ] ]; try reflexivity. lia.
Qed.

(** C8.  On an image-like input whose images all have three channels, the
    permutation [[2, 0, 1]] yields, without error, the same kind of input
    with the channels of every image in the order [old_2, old_0, old_1]; a
    [features.Image] comes back with colour space [OTHER]. *)
Theorem Shuffle_transform_201 (inpt : input) (t : tensor) :
  as_tensor inpt = Some t ->
  batch_all has_3_channels t = true ->
  _RandomChannelShuffle._transform inpt [2; 0; 1]
  = Ok match inpt with
       | ITensor _ => ITensor (batch_map reorder_201 t)
       | IImage _ => IImage (mkImage (batch_map reorder_201 t) OTHER)
       | IPIL _ => IPIL (to_pil_image (batch_map reorder_201 t))
       | IOther _ => inpt
       end
  /\ (forall im k, has_3_channels im = true -> k < 3 ->
        nth_error (reorder_201 im) k = nth_error im (nth k [2; 0; 1] 0)).
Proof.
  intros Ht H3. split; [ | intros im k; apply reorder_201_channel ].
  destruct inpt as [ t' | img | q | o ]; simpl in Ht; try discriminate;
    injection Ht as <-; unfold _RandomChannelShuffle._transform; simpl;
    unfold index_or_raise; rewrite (index_select_201 _ H3); reflexivity.
Qed.

End ShuffleProperties.

Section ShuffleRuns.
Import _RandomChannelShuffle.
Import Demo.

Lemma Shuffle_transform_non_image_witness :
  _RandomChannelShuffle._transform (journal [CallEqualize]) [2; 0; 1]
  = Ok (journal [CallEqualize]).
Proof.
  apply (Shuffle_transform_non_image (journal [CallEqualize]) [2; 0; 1]);
    reflexivity.
Defined.

Lemma Shuffle_transform_201_witness :
  _RandomChannelShuffle._transform (IImage (mkImage rgb_pair RGB)) [2; 0; 1]
  = Ok (IImage (mkImage (batch_map reorder_201 rgb_pair) OTHER))
  /\ (forall im k, has_3_channels im = true -> k < 3 ->
        nth_error (reorder_201 im) k = nth_error im (nth k [2; 0; 1] 0)).
Proof.
  apply (Shuffle_transform_201 (IImage (mkImage rgb_pair RGB)) rgb_pair);
    reflexivity.
Defined.

Example Shuffle_transform_rgb :
  _RandomChannelShuffle._transform (ITensor (One rgb_2x2)) [2; 0; 1]
  = Ok (ITensor (One [ [[30; 31]; [32; 33]]; [[10; 11]; [12; 13]];
                       [[20; 21]; [22; 23]] ]%Z)).
Proof. reflexivity. Qed.

(** An index past the last channel is an error, as in torch. *)
Example Shuffle_transform_out_of_range :
  _RandomChannelShuffle._transform (ITensor (One rgb_2x2)) [2; 0; 3]
  = Raise IndexError.
Proof. reflexivity. Qed.

End ShuffleRuns.

(** ** [RandomPhotometricDistort._transform] *)

Section DistortProperties.
Import RandomPhotometricDistort.
Context {C : Carriers} {K : Kernels}.

(** Hue is not among the scheduled sub-transforms, and saturation occurs
    twice or not at all. *)
Lemma schedule_shape (params : Params) :
  ~ In SubHue (schedule params)
  /\ count_occ sub_transform_eq_dec (schedule params) SubSaturation
     = (if saturation params then 2 else 0).
Proof.
  destruct params as [b c1 s h c2 cs before]; unfold schedule; simpl.
  destruct b, c1, s, c2, cs, before; simpl; split;
    try reflexivity; intuition discriminate.
Qed.

(** C9.  [RandomPhotometricDistort._transform] runs the sub-transforms in
    this order: brightness if its gate is set; contrast if [contrast1] and [contrast_before]; saturation
    twice if its gate is set; contrast if [contrast2] and not
    [contrast_before]; channel shuffle if its gate is set.  Hue is never run
    and its gate has no effect. *)
Theorem Distort_transform_schedule
    (self : t) (inpt : input) (params : Params) (g : rng) :
  RandomPhotometricDistort._transform self inpt params g
  = run_schedule self (schedule params) inpt g
  /\ schedule params
     = (if brightness params then [SubBrightness] else [])
       ++ (if contrast1 params && contrast_before params
           then [SubContrast] else [])
       ++ (if saturation params then [SubSaturation; SubSaturation] else [])
       ++ (if contrast2 params && negb (contrast_before params)
           then [SubContrast] else [])
       ++ (if channel_shuffle params then [SubChannelShuffle] else [])
  /\ ~ In SubHue (schedule params)
  /\ (forall h,
        RandomPhotometricDistort._transform self inpt
          (mkParams (brightness params) (contrast1 params)
             (saturation params) h (contrast2 params)
             (channel_shuffle params) (contrast_before params)) g
        = RandomPhotometricDistort._transform self inpt params g).
Proof.
  split; [ | split; [ reflexivity | split; [ apply schedule_shape | ] ] ].
  - destruct params as [b c1 s h c2 cs before].
    unfold RandomPhotometricDistort._transform, schedule;
      cbn [brightness contrast1 saturation hue contrast2 channel_shuffle
           contrast_before].
    destruct b, c1, s, c2, cs, before;
      cbn [andb negb app when run_schedule call_sub]; unfold bind, ret;
      repeat match goal with
             | |- context [match ?m ?x ?y with _ => _ end] =>
                 destruct (m x y) as [[? ?] | ?]
             | |- context [match ?m ?x with _ => _ end] =>
                 destruct (m x) as [[? ?] | ?]
             end; reflexivity.
  - intros h. destruct params; reflexivity.
Qed.

End DistortProperties.

Section DistortRuns.
Import RandomPhotometricDistort.
Import Demo.

Example Distort_init_defaults :
  RandomPhotometricDistort.__init__ (0.5, 1.5)%float (0.5, 1.5)%float
    (-0.05, 0.05)%float (0.875, 1.125)%float 0.5%float
  = Ok default_distort.
Proof. vm_compute. reflexivity. Qed.

(** Every gate set and [contrast_before] false: in the journal the calls
    are brightness, saturation, saturation, contrast; no hue. *)
Example Distort_transform_journal :
  RandomPhotometricDistort._transform default_distort (journal [])
    (mkParams true true true true true false false) [0; 0; 0; 0]%float
  = Ok (journal [CallBrightness 0.875; CallSaturation 0.5;
                 CallSaturation 0.5; CallContrast 0.5]%float, []).
Proof. vm_compute. reflexivity. Qed.

End DistortRuns.

(** ** [RandomEqualize] *)

Section EqualizeProperties.
Import RandomEqualize.
Context {C : Carriers} {K : Kernels}.

(** C10.  When the draw [u] of the gate lies in [[0, 1)], [RandomEqualize]
    with [p = 1.0] returns the equalized input and with [p = 0.0] returns the
    input itself. *)
Theorem RandomEqualize_p_one_p_zero (inpt : input) (g : rng) :
  (0 <=? fst (rand g))%float = true ->
  (fst (rand g) <? 1)%float = true ->
  RandomEqualize.forward (RandomEqualize.__init__ 1) inpt g
  = Ok (equalize inpt, snd (rand g))
  /\ RandomEqualize.forward (RandomEqualize.__init__ 0) inpt g
     = Ok (inpt, snd (rand g)).
Proof.
  intros H0 H1.
  unfold RandomEqualize.forward, RandomEqualize.__init__, bernoulli, bind,
    draw, ret, RandomEqualize._transform; cbn [p].
  destruct (rand g) as [u g']; cbn [fst snd] in *.
  rewrite H1, (FloatFacts.leb_ltb_false _ _ H0). split; reflexivity.
Qed.

End EqualizeProperties.

Section EqualizeRuns.
Import RandomEqualize.
Import Demo.

Lemma RandomEqualize_p_one_p_zero_witness :
  RandomEqualize.forward (RandomEqualize.__init__ 1) (journal []) tape_025
  = Ok (equalize (journal []), snd (rand tape_025))
  /\ RandomEqualize.forward (RandomEqualize.__init__ 0) (journal []) tape_025
     = Ok (journal [], snd (rand tape_025)).
Proof.
  apply (RandomEqualize_p_one_p_zero (journal []) tape_025);
    vm_compute; reflexivity.
Defined.

Example RandomEqualize_journal :
  RandomEqualize.forward (RandomEqualize.__init__ 1) (journal []) tape_025
  = Ok (journal [CallEqualize], [])
  /\ RandomEqualize.forward (RandomEqualize.__init__ 0) (journal []) tape_025
     = Ok (journal [], []).
Proof. vm_compute. split; reflexivity. Qed.

End EqualizeRuns.


(** * Further properties *)

(** ** [ColorJitter._check_input]: signs, NaN and the clamp *)

Section CheckInputMore.
Import ColorJitter.
Local Open Scope float_scope.

Lemma Prim2SF_nan : Prim2SF nan = S754_nan.
Proof. vm_compute. reflexivity. Qed.

Lemma is_nan_eq (v : float) : is_nan v = true -> v = nan.
Proof.
  unfold is_nan. rewrite negb_true_iff, eqb_spec. intros H.
  apply Prim2SF_inj. rewrite Prim2SF_nan. unfold SFeqb in H.
  destruct (Prim2SF v) as [s | s | | s m e]; simpl in H; try discriminate;
    try reflexivity.
  - destruct s; discriminate.
  - destruct s; rewrite Z.compare_refl, Pos.compare_cont_refl in H; discriminate.
Qed.

Lemma nan_arith (c : float) : c - nan = nan /\ c + nan = nan.
Proof.
  split; apply Prim2SF_inj;
    rewrite ?sub_spec, ?add_spec, Prim2SF_nan;
    destruct (Prim2SF c); reflexivity.
Qed.

Lemma nan_leb (a b : float) :
  is_nan a = true \/ is_nan b = true -> (a <=? b) = false.
Proof.
  intros H. rewrite leb_spec. unfold SFleb.
  destruct H as [H | H]; apply is_nan_eq in H; subst; rewrite Prim2SF_nan;
    [ | destruct (Prim2SF a) ]; reflexivity.
Qed.

(** X1.  NaN is accepted as a single number and rejected inside a pair: a
    single NaN passes the guard [value < 0] and comes back as [(nan, nan)],
    whatever the centre, the bound and the clamp; a pair with a NaN entry
    fails the chained comparison and raises [ValueError]. *)
Theorem check_input_nan_single_and_pair
    (name : string) (center : float) (bound : float * float) (clip : bool) :
  (forall v, is_nan v = true ->
     _check_input (VFloat v) name center bound clip = Ok (Some (nan, nan)))
  /\ (forall a b, is_nan a = true \/ is_nan b = true ->
     _check_input (VSeq [a; b]) name center bound clip
     = Raise (ValueError_between name bound)).
Proof.
  split.
  - intros v Hv. apply is_nan_eq in Hv. subst v.
    unfold _check_input. change (nan <? 0) with false. cbv iota.
    destruct (nan_arith center) as [-> ->].
    destruct clip; reflexivity.
  - intros a b H. unfold _check_input, within_bound.
    rewrite (nan_leb a b H), andb_false_r. reflexivity.
Qed.

(** A positive float is [+inf] or a positive finite number. *)
Lemma positive_cases (v : float) :
  (0 <? v) = true ->
  Prim2SF v = S754_infinity false
  \/ exists m e, Prim2SF v = S754_finite false m e.
Proof.
  rewrite ltb_spec, Prim2SF_0. unfold SFltb.
  destruct (Prim2SF v) as [s | s | | s m e]; simpl; try discriminate;
    destruct s; try discriminate; eauto.
Qed.

(** Around the centre 0 nothing is rounded: [0 - v] is [-v] and [0 + v]
    is [v]. *)
Lemma zero_minus_plus (v : float) :
  (0 <? v) = true ->
  0 - v = - v /\ 0 + v = v /\ (v <? 0) = false /\ (- v =? v) = false.
Proof.
  intros H. pose proof (positive_cases v H) as Hc.
  repeat split.
  - apply Prim2SF_inj. rewrite sub_spec, opp_spec, Prim2SF_0.
    destruct Hc as [-> | [m [e ->]]]; reflexivity.
  - apply Prim2SF_inj. rewrite add_spec, Prim2SF_0.
    destruct Hc as [-> | [m [e ->]]]; reflexivity.
  - rewrite ltb_spec, Prim2SF_0.
    destruct Hc as [-> | [m [e ->]]]; reflexivity.
  - rewrite eqb_spec, opp_spec.
    destruct Hc as [-> | [m [e ->]]]; reflexivity.
Qed.

(** X2.  A single positive hue [v] gives the range [(-v, v)] exactly: the
    ends are not rounded, not clipped, and not compared with the bound
    [(-0.5, 0.5)], which line 48 applies to sequences only; so a value above
    0.5 is accepted at construction. *)
Theorem ColorJitter_init_hue_single (v : float) :
  (0 <? v) = true ->
  __init__ VNone VNone VNone (VFloat v) = Ok (mk None None None (Some (- v, v))).
Proof.
  intros H. destruct (zero_minus_plus v H) as [Es [Ea [Hn He]]].
  unfold __init__, check_input_default, _check_input, bind_result.
  rewrite Hn, Es, Ea. unfold finish, collapses. rewrite He. reflexivity.
Qed.

Lemma ColorJitter_init_hue_single_witness :
  __init__ VNone VNone VNone (VFloat 0.7)
  = Ok (mk None None None (Some (- 0.7, 0.7))).
Proof. apply (ColorJitter_init_hue_single 0.7). vm_compute. reflexivity. Defined.

Lemma finite_not_nan (x : float) : is_finite x = true -> is_nan x = false.
Proof.
  unfold is_finite. rewrite negb_true_iff, orb_false_iff. tauto.
Qed.

Lemma round_key_key (x : float) :
  is_finite x = true -> round_key (key (Prim2SF x)) = key (Prim2SF x).
Proof.
  intros H. pose proof (Prim2SF_valid x) as V.
  destruct (is_finite_spec x H) as [[s E] | [s [m [e E]]]]; rewrite E in *.
  - reflexivity.
  - simpl in V. cbn [key]. destruct s; cbn [cond_Zopp].
    + rewrite round_key_opp, (round_key_exact m e V). reflexivity.
    + apply round_key_exact, V.
Qed.

Lemma ltb_key (x y : float) :
  is_nan x = false -> is_nan y = false ->
  (x <? y) = (key (Prim2SF x) <? key (Prim2SF y))%Z.
Proof.
  intros Hx Hy. rewrite ltb_spec. unfold SFltb.
  rewrite SFcompare_key;
    [ | apply Prim2SF_valid | apply Prim2SF_valid
      | apply not_nan_spec; exact Hx | apply not_nan_spec; exact Hy ].
  unfold Z.ltb. destruct (key (Prim2SF x) ?= key (Prim2SF y))%Z; reflexivity.
Qed.

(** Subtracting a non-negative float never goes above the start, adding it
    never goes below. *)
Lemma sub_le_self_le_add (c v : float) :
  is_finite c = true -> is_nan v = false -> (v <? 0) = false ->
  (c - v <=? c) = true /\ (c <=? c + v) = true.
Proof.
  intros Hc Hn Hv. pose proof (finite_not_nan c Hc) as Nc.
  destruct (is_finite v) eqn:Hf.
  - destruct (finite_add_sub_not_nan c v Hc Hn) as [Ns Na].
    destruct (add_sub_key c v Hc Hf) as [Ka Ks].
    pose proof (key_nonneg v Hn Hv) as K0.
    pose proof (round_key_key c Hc) as Kc.
    rewrite (leb_key (c - v) c Ns Nc), (leb_key c (c + v) Nc Na), Ka, Ks.
    rewrite <- Kc at 2 3.
    split; apply Z.leb_le, round_key_mono; lia.
  - rewrite (nonneg_not_finite v Hn Hv Hf).
    rewrite !leb_spec, sub_spec, add_spec, Prim2SF_infinity.
    destruct (is_finite_spec c Hc) as [[s E] | [s [m [e E]]]]; rewrite E;
      split; reflexivity.
Qed.

(** X3.  For a single number the returned range contains the centre: with a
    finite centre, an input that is not NaN and, under the clamp, a centre
    that is not negative, [low <= center <= high]. *)
Theorem check_input_single_contains_center
    (v : float) (name : string) (center : float) (bound : float * float)
    (clip : bool) (lo hi : float) :
  is_finite center = true -> is_nan v = false ->
  (clip = true -> (0 <=? center) = true) ->
  _check_input (VFloat v) name center bound clip = Ok (Some (lo, hi)) ->
  (lo <=? center) = true /\ (center <=? hi) = true.
Proof.
  intros Hc Hn Hclip H. unfold _check_input in H.
  destruct (v <? 0) eqn:Hv; [ discriminate | ].
  unfold finish in H. destruct (collapses _ _ _); [ discriminate | ].
  injection H as <- <-.
  destruct (sub_le_self_le_add center v Hc Hn Hv) as [Hlo Hhi].
  split; [ | exact Hhi ].
  destruct clip; [ | exact Hlo ].
  unfold Py.max. destruct (center - v <? 0); auto.
Qed.

Lemma check_input_single_contains_center_witness :
  (0 <=? 1) = true /\ (1 <=? 4) = true.
Proof.
  apply (check_input_single_contains_center 3 "brightness" 1 default_bound true 0 4);
    vm_compute; reflexivity.
Defined.

Lemma ltb_not_nan (x y : float) :
  (x <? y) = true -> is_nan x = false /\ is_nan y = false.
Proof.
  rewrite ltb_spec, !not_nan_spec. unfold SFltb.
  destruct (Prim2SF x), (Prim2SF y); simpl; try discriminate; split; discriminate.
Qed.

(** A difference [1 - v] whose key is 0 is the float [+0.0]. *)
Lemma one_minus_key_zero (v : float) :
  is_finite v = true -> key (Prim2SF (1 - v)) = 0%Z -> 1 - v = 0.
Proof.
  intros Hf HK. apply Prim2SF_inj. pose proof (Prim2SF_valid v) as V.
  rewrite sub_spec, Prim2SF_one, Prim2SF_0 in *.
  destruct (is_finite_spec v Hf) as [[s E] | [s [m [e E]]]]; rewrite E in *.
  - vm_compute in HK. discriminate.
  - simpl in V. destruct (bounded_inv m e V) as [He _].
    unfold SF64sub, SFsub in *.
    match type of HK with
    | key (binary_normalize _ _ ?M ?ez ?sz) = _ =>
        destruct (normalize_key M ez sz ltac:(lia)) as [_ HN];
        rewrite HN in HK; clear HN;
        pose proof (rounded_pos) as P;
        destruct M as [ | p | p ] eqn:EM;
        [ reflexivity
        | specialize (P p ez ltac:(lia)); cbn [normal_key] in HK; lia
        | specialize (P p ez ltac:(lia)); cbn [normal_key] in HK; lia ]
    end.
Qed.

Lemma round_key_0_1 : round_key 0 = 0%Z /\ round_key 1 = 1%Z.
Proof. vm_compute. split; reflexivity. Qed.

(** X4.  With the defaults and [v] above [2^-54], the result is the pair
    [(0, 1 + v)] when [v >= 1] and [(1 - v, 1 + v)] with [1 - v > 0] when
    [v < 1]: the clamp of line 46 takes effect exactly from [v = 1] on. *)
Theorem check_input_default_clamp (v : float) (name : string) :
  (0x1p-54 <? v) = true ->
  check_input_default (VFloat v) name
  = Ok (Some (if 1 <=? v then 0 else 1 - v, 1 + v))
  /\ ((1 <=? v) = false -> (0 <? 1 - v) = true).
Proof.
  intros Hv. destruct (ltb_not_nan _ _ Hv) as [_ Hn].
  pose proof (FloatFacts.ltb_leb_false _ _ Hv) as Hle.
  assert (Kv : (key_half_ulp < key (Prim2SF v))%Z).
  { rewrite (ltb_key 0x1p-54 v eq_refl Hn), key_of_half_ulp in Hv.
    apply Z.ltb_lt. exact Hv. }
  assert (Kh : (0 < key_half_ulp)%Z) by (apply pow2_pos; lia).
  assert (Hneg : (v <? 0) = false).
  { rewrite (ltb_key v 0 Hn eq_refl), Prim2SF_0. apply Z.ltb_ge. cbn [key]. lia. }
  destruct round_key_0_1 as [R0 R1].
  assert (Hsmall : (1 <=? v) = false ->
            is_finite v = true /\ (1 <= key (Prim2SF (1 - v)))%Z
            /\ is_nan (1 - v) = false).
  { intros H1. destruct (is_finite v) eqn:Hf.
    - destruct (finite_add_sub_not_nan 1 v eq_refl Hn) as [Ns _].
      destruct (add_sub_key 1 v eq_refl Hf) as [_ Ks].
      rewrite (leb_key 1 v eq_refl Hn), key_of_one in H1.
      apply Z.leb_gt in H1. rewrite key_of_one in Ks.
      pose proof (round_key_mono 1 (key_one - key (Prim2SF v)) ltac:(lia)).
      repeat split; auto. lia.
    - rewrite (nonneg_not_finite v Hn Hneg Hf) in H1. discriminate H1. }
  split.
  - unfold check_input_default, _check_input, default_center.
    rewrite Hneg. unfold finish.
    rewrite collapses_default, (collapse_threshold v Hn Hneg), Hle.
    unfold Py.max. do 3 f_equal.
    destruct (1 <=? v) eqn:H1.
    + destruct (1 - v <? 0) eqn:Hlt; [ reflexivity | ].
      destruct (is_finite v) eqn:Hf.
      * destruct (finite_add_sub_not_nan 1 v eq_refl Hn) as [Ns _].
        destruct (add_sub_key 1 v eq_refl Hf) as [_ Ks].
        rewrite (leb_key 1 v eq_refl Hn), key_of_one in H1.
        apply Z.leb_le in H1. rewrite key_of_one in Ks.
        pose proof (round_key_mono (key_one - key (Prim2SF v)) 0 ltac:(lia)).
        rewrite (ltb_key _ 0 Ns eq_refl), Prim2SF_0 in Hlt.
        apply Z.ltb_ge in Hlt. cbn [key] in Hlt.
        apply (one_minus_key_zero v Hf). lia.
      * rewrite (nonneg_not_finite v Hn Hneg Hf) in Hlt. discriminate Hlt.
    + destruct (Hsmall eq_refl) as [Hf [K1 Ns]].
      rewrite (ltb_key _ 0 Ns eq_refl), Prim2SF_0. cbn [key].
      destruct (Z.ltb_spec (key (Prim2SF (1 - v))) 0); [ lia | reflexivity ].
  - intros H1. destruct (Hsmall H1) as [Hf [K1 Ns]].
    rewrite (ltb_key 0 _ eq_refl Ns), Prim2SF_0. cbn [key].
    apply Z.ltb_lt. lia.
Qed.

Lemma check_input_default_clamp_witness :
  check_input_default (VFloat 3) "brightness"
  = Ok (Some (if 1 <=? 3 then 0 else 1 - 3, 1 + 3))
  /\ ((1 <=? 3) = false -> (0 <? 1 - 3) = true).
Proof. apply (check_input_default_clamp 3 "brightness"). vm_compute. reflexivity. Defined.

End CheckInputMore.


(** ** [ColorJitter]: from construction to the kernel calls *)

Section JitterMore.
Import ColorJitter.
Context {C : Carriers} {K : Kernels}.

(** X5.  [ColorJitter()] with no argument is built with four [None] ranges
    and leaves every input as it is; it still draws the permutation. *)
Theorem ColorJitter_default_is_identity :
  exists self,
    ColorJitter.__init__ VNone VNone VNone VNone = Ok self
    /\ forall inpt g,
         ColorJitter.forward self inpt g = Ok (inpt, snd (randperm 4 g)).
Proof.
  exists (mk None None None None). split; [ reflexivity | ].
  intros inpt g.
  unfold ColorJitter.forward, ColorJitter._get_params, bind, draw, ret,
    sample_factor; cbn [brightness contrast saturation hue].
  unfold ret. destruct (randperm 4 g) as [idx g']. cbn [snd].
  rewrite ColorJitter_transform_all_none. reflexivity.
Qed.



Lemma flat_map_all_nil {A B} (f : A -> list B) (l : list A) :
  (forall x, In x l -> f x = []) -> flat_map f l = [].
Proof.
  induction l as [ | x l IH ]; intros H; simpl; [ reflexivity | ].
  rewrite (H x (or_introl eq_refl)), IH; [ reflexivity | ].
  intros y Hy. apply H. right. exact Hy.
Qed.

Lemma flat_map_single {A B} (f : A -> list B) (l : list A) (a : A) (bs : list B) :
  NoDup l -> In a l -> f a = bs -> (forall x, x <> a -> f x = []) ->
  flat_map f l = bs.
Proof.
  intros Hnd Hin Hf Hother. induction l as [ | x l IH ]; [ contradiction | ].
  inversion Hnd as [ | ? ? Hx Hl ]; subst. simpl.
  destruct Hin as [-> | Hin].
  - rewrite (flat_map_all_nil f l); [ apply app_nil_r | ].
    intros y Hy. apply Hother. intros ->. contradiction.
  - rewrite (Hother x), IH; auto. intros ->. contradiction.
Qed.

(** X7.  With a single factor that is not [None], the permutation does not
    matter: [_transform] is one call of that kernel. *)
Theorem ColorJitter_transform_single
    (inpt : input) (params : Params) (i : nat) (op : pixel_op) :
  Permutation (fn_idx params) [0; 1; 2; 3] ->
  op_at params i = Some op ->
  (forall j, j <> i -> op_at params j = None) ->
  ColorJitter._transform inpt params = run_op inpt op.
Proof.
  intros Hperm Hop Hnone. unfold ColorJitter._transform.
  rewrite fold_jitter_steps.
  rewrite (flat_map_single _ (fn_idx params) i [op]); try reflexivity.
  - apply (Permutation_NoDup (Permutation_sym Hperm)).
    repeat constructor; simpl; intuition discriminate.
  - apply (Permutation_in _ (Permutation_sym Hperm)).
    rewrite <- (op_at_index params i op Hop). apply op_index_lt_4.
  - rewrite Hop. reflexivity.
  - intros j Hj. rewrite (Hnone j Hj). reflexivity.
Qed.

End JitterMore.

Section JitterMoreRuns.
Import ColorJitter.
Import Demo.


Lemma ColorJitter_transform_single_witness :
  ColorJitter._transform (journal [])
    (mkParams [3; 1; 0; 2] None (Some 0.9%float) None None)
  = run_op (journal []) (Contrast 0.9%float).
Proof.
  apply (ColorJitter_transform_single (journal [])
           (mkParams [3; 1; 0; 2] None (Some 0.9%float) None None) 1).
  - simpl. apply (perm_trans (l' := [1; 0; 2; 3])).
    + apply (Permutation_cons_app [1; 0; 2] [] 3). reflexivity.
    + apply perm_swap.
  - reflexivity.
  - intros [ | [ | [ | [ | j ] ] ] ] Hj; try reflexivity. congruence.
Defined.

End JitterMoreRuns.


(** ** [_RandomChannelShuffle._transform]: any permutation *)

Section ShuffleMore.
Import _RandomChannelShuffle.
Context {C : Carriers} {K : Kernels}.

Lemma index_channels_in_range (permutation : list nat) (im : chw) :
  Forall (fun i => i < List.length im) permutation ->
  index_channels permutation im = Some (reindex permutation im).
Proof.
  unfold index_channels, reindex. induction 1 as [ | i l Hi Hl IH ]; simpl.
  - reflexivity.
  - rewrite IH. destruct (nth_error im i) as [c | ] eqn:E.
    + rewrite (nth_error_nth im i [] E). reflexivity.
    + apply nth_error_None in E. lia.
Qed.

Lemma index_channels_out_of_range (permutation : list nat) (im : chw) :
  existsb (fun i => List.length im <=? i) permutation = true ->
  index_channels permutation im = None.
Proof.
  unfold index_channels. induction permutation as [ | i l IH ]; simpl.
  - discriminate.
  - intros H. apply orb_prop in H as [H | H].
    + apply Nat.leb_le in H. apply nth_error_None in H. rewrite H. reflexivity.
    + rewrite (IH H). destruct (nth_error im i); reflexivity.
Qed.

Lemma traverse_some_none {A B} (f : A -> option B) (l : list A) :
  existsb (fun a => match f a with None => true | Some _ => false end) l = true ->
  traverse f l = None.
Proof.
  induction l as [ | a l IH ]; simpl; [ discriminate | ].
  intros H. destruct (f a) as [b | ]; [ | reflexivity ].
  simpl in H. rewrite (IH H). reflexivity.
Qed.

Lemma index_select_in_range (permutation : list nat) (n : nat) (t : tensor) :
  channels_are n t = true ->
  Forall (fun i => i < n) permutation ->
  index_select permutation t = Some (batch_map (reindex permutation) t).
Proof.
  intros Ht Hp. unfold index_select, channels_are in *.
  induction t as [ im | l IH ] using batch_nested_ind; simpl in *.
  - apply Nat.eqb_eq in Ht. subst n.
    rewrite (index_channels_in_range permutation im Hp). reflexivity.
  - rewrite (traverse_all _ (batch_map (reindex permutation))); [ reflexivity | ].
    rewrite forallb_forall in Ht. rewrite Forall_forall in IH |- *.
    intros t Hin. apply IH; auto.
Qed.

Lemma index_select_out_of_range (permutation : list nat) (t : tensor) :
  batch_exists
    (fun im : chw => existsb (fun i => List.length im <=? i) permutation) t
  = true ->
  index_select permutation t = None.
Proof.
  unfold index_select.
  induction t as [ im | l IH ] using batch_nested_ind; simpl; intros H.
  - rewrite (index_channels_out_of_range permutation im H). reflexivity.
  - rewrite traverse_some_none; [ reflexivity | ].
    apply existsb_exists in H as [t [Hin Ht]]. apply existsb_exists.
    exists t. split; [ exact Hin | ].
    rewrite Forall_forall in IH. rewrite (IH t Hin Ht). reflexivity.
Qed.

Lemma transform_rebuilt (inpt : input) (t t' : tensor) (permutation : list nat) :
  as_tensor inpt = Some t ->
  index_select permutation t = Some t' ->
  _RandomChannelShuffle._transform inpt permutation = Ok (rebuilt inpt t').
Proof.
  intros Ht Hs.
  destruct inpt as [ t0 | img | q | o ]; simpl in Ht; try discriminate;
    injection Ht as <-; unfold _RandomChannelShuffle._transform; simpl;
    unfold index_or_raise; rewrite Hs; reflexivity.
Qed.


(** X9.  An index that is not below the number of channels of some image
    makes [_transform] raise [IndexError] on every image-like input. *)
Theorem Shuffle_transform_out_of_range_raises
    (inpt : input) (t : tensor) (permutation : list nat) :
  as_tensor inpt = Some t ->
  batch_exists
    (fun im : chw => existsb (fun i => List.length im <=? i) permutation) t
  = true ->
  _RandomChannelShuffle._transform inpt permutation = Raise IndexError.
Proof.
  intros Ht H. pose proof (index_select_out_of_range permutation t H) as Hs.
  destruct inpt as [ t0 | img | q | o ]; simpl in Ht; try discriminate;
    injection Ht as <-; unfold _RandomChannelShuffle._transform; simpl;
    unfold index_or_raise; rewrite Hs; reflexivity.
Qed.

Lemma batch_map_ext {A B} (f g : A -> B) (t : batch A) :
  (forall a, f a = g a) -> batch_map f t = batch_map g t.
Proof.
  intros H. induction t as [ a | l IH ] using batch_nested_ind; simpl.
  - rewrite H. reflexivity.
  - f_equal. apply map_ext_in. rewrite Forall_forall in IH. exact IH.
Qed.

Lemma batch_map_ext_all {A B} (P : A -> bool) (f g : A -> B) (t : batch A) :
  (forall a, P a = true -> f a = g a) ->
  batch_all P t = true -> batch_map f t = batch_map g t.
Proof.
  intros H. induction t as [ a | l IH ] using batch_nested_ind; simpl; intros Ht.
  - rewrite (H a Ht). reflexivity.
  - f_equal. apply map_ext_in. intros t Hin.
    rewrite Forall_forall in IH. rewrite forallb_forall in Ht. auto.
Qed.

Lemma batch_map_map {A B D} (f : A -> B) (g : B -> D) (t : batch A) :
  batch_map g (batch_map f t) = batch_map (fun a => g (f a)) t.
Proof.
  induction t as [ a | l IH ] using batch_nested_ind; simpl; [ reflexivity | ].
  f_equal. rewrite map_map. apply map_ext_in.
  rewrite Forall_forall in IH. exact IH.
Qed.

Lemma batch_map_id {A} (P : A -> bool) (f : A -> A) (t : batch A) :
  (forall a, P a = true -> f a = a) ->
  batch_all P t = true -> batch_map f t = t.
Proof.
  intros H. induction t as [ a | l IH ] using batch_nested_ind; simpl; intros Ht.
  - rewrite (H a Ht). reflexivity.
  - f_equal. rewrite <- (map_id l) at 2. apply map_ext_in. intros t Hin.
    rewrite Forall_forall in IH. rewrite forallb_forall in Ht. auto.
Qed.

Lemma channels_are_reindex (n : nat) (permutation : list nat) (t : tensor) :
  channels_are (List.length permutation) (batch_map (reindex permutation) t)
  = true.
Proof.
  unfold channels_are.
  induction t as [ im | l IH ] using batch_nested_ind; simpl.
  - unfold reindex. rewrite length_map. apply Nat.eqb_refl.
  - apply forallb_forall. intros t Hin. apply in_map_iff in Hin as [t0 [<- Hin]].
    rewrite Forall_forall in IH. auto.
Qed.

Lemma reindex_reindex (p1 p2 : list nat) (im : chw) :
  Forall (fun k => k < List.length p1) p2 ->
  reindex p2 (reindex p1 im) = reindex (then_permutation p1 p2) im.
Proof.
  intros H. unfold reindex, then_permutation. rewrite map_map.
  apply map_ext_in. intros k Hk. rewrite Forall_forall in H.
  rewrite (nth_indep _ [] (nth 0 im []));
    [ | rewrite length_map; apply H, Hk ].
  apply (map_nth (fun i => nth i im []) p1 0 k).
Qed.

Lemma reindex_seq (im : chw) : reindex (seq 0 (List.length im)) im = im.
Proof.
  unfold reindex. induction im as [ | c im IH ]; simpl; [ reflexivity | ].
  f_equal. rewrite <- seq_shift, map_map. exact IH.
Qed.

Lemma then_permutation_in_range (n : nat) (p1 p2 : list nat) :
  Forall (fun i => i < n) p1 ->
  Forall (fun k => k < List.length p1) p2 ->
  Forall (fun i => i < n) (then_permutation p1 p2).
Proof.
  intros H1 H2. unfold then_permutation. rewrite Forall_forall in *.
  intros i Hi. apply in_map_iff in Hi as [k [<- Hk]].
  apply H1, nth_In, H2, Hk.
Qed.

(** X10.  Two shuffles in a row are one shuffle: on a plain tensor or a
    [features.Image], applying [p1] and then [p2] gives what the single
    permutation "[p1], then [p2]" gives. *)
Theorem Shuffle_transform_compose
    (inpt : input) (t : tensor) (n : nat) (p1 p2 : list nat) :
  as_tensor inpt = Some t ->
  isinstance_PIL inpt = false ->
  channels_are n t = true ->
  Forall (fun i => i < n) p1 ->
  Forall (fun k => k < List.length p1) p2 ->
  bind_result (_RandomChannelShuffle._transform inpt p1)
    (fun out => _RandomChannelShuffle._transform out p2)
  = _RandomChannelShuffle._transform inpt (then_permutation p1 p2).
Proof.
  intros Ht HP Hn H1 H2.
  rewrite (transform_rebuilt inpt t _ p1 Ht (index_select_in_range p1 n t Hn H1)).
  rewrite (transform_rebuilt inpt t _ _ Ht
             (index_select_in_range _ n t Hn
                (then_permutation_in_range n p1 p2 H1 H2))).
  cbn [bind_result].
  set (t1 := batch_map (reindex p1) t).
  assert (Ht1 : as_tensor (rebuilt inpt t1) = Some t1).
  { destruct inpt; try discriminate; reflexivity. }
  rewrite (transform_rebuilt _ t1 _ p2 Ht1
             (index_select_in_range p2 (List.length p1) t1
                (channels_are_reindex n p1 t) H2)).
  unfold t1. rewrite batch_map_map.
  rewrite (batch_map_ext _ (reindex (then_permutation p1 p2)) t
             (fun im => reindex_reindex p1 p2 im H2)).
  destruct inpt; try discriminate; reflexivity.
Qed.

(** X11.  The identity permutation changes no pixel, but a [features.Image]
    still comes back tagged [OTHER]: the result is the input rebuilt around
    its own tensor. *)
Theorem Shuffle_transform_identity (inpt : input) (t : tensor) (n : nat) :
  as_tensor inpt = Some t ->
  channels_are n t = true ->
  _RandomChannelShuffle._transform inpt (seq 0 n) = Ok (rebuilt inpt t).
Proof.
  intros Ht Hn.
  assert (Hr : Forall (fun i => i < n) (seq 0 n)).
  { apply Forall_forall. intros i Hi. apply in_seq in Hi. lia. }
  rewrite (transform_rebuilt inpt t _ _ Ht (index_select_in_range _ n t Hn Hr)).
  do 2 f_equal. apply (batch_map_id (fun im : chw => Nat.eqb (List.length im) n));
    [ | exact Hn ].
  intros im Him. apply Nat.eqb_eq in Him. subst n. apply reindex_seq.
Qed.

(** X12.  Round trip: when [p2] undoes [p1], shuffling a plain tensor by
    [p1] and then by [p2] gives the tensor back. *)
Theorem Shuffle_transform_round_trip (t : tensor) (n : nat) (p1 p2 : list nat) :
  channels_are n t = true ->
  Forall (fun i => i < n) p1 ->
  Forall (fun k => k < List.length p1) p2 ->
  then_permutation p1 p2 = seq 0 n ->
  bind_result (_RandomChannelShuffle._transform (ITensor t) p1)
    (fun out => _RandomChannelShuffle._transform out p2)
  = Ok (ITensor t).
Proof.
  intros Hn H1 H2 Hinv.
  rewrite (transform_rebuilt (ITensor t) t _ p1 eq_refl
             (index_select_in_range p1 n t Hn H1)).
  cbn [bind_result rebuilt].
  rewrite (transform_rebuilt (ITensor (batch_map (reindex p1) t)) _ _ p2 eq_refl
             (index_select_in_range p2 (List.length p1) _
                (channels_are_reindex n p1 t) H2)).
  cbn [rebuilt]. rewrite batch_map_map. do 2 f_equal.
  apply (batch_map_id (fun im : chw => Nat.eqb (List.length im) n));
    [ | exact Hn ].
  intros im Him. apply Nat.eqb_eq in Him.
  rewrite (reindex_reindex p1 p2 im H2), Hinv. subst n. apply reindex_seq.
Qed.

(** X13.  A true permutation of the channel indices loses and repeats no
    channel: every image of the result holds the channels of the original
    image, in another order. *)
Theorem Shuffle_transform_keeps_channels
    (inpt : input) (t : tensor) (n : nat) (permutation : list nat) :
  as_tensor inpt = Some t ->
  channels_are n t = true ->
  Permutation permutation (seq 0 n) ->
  _RandomChannelShuffle._transform inpt permutation
  = Ok (rebuilt inpt (batch_map (reindex permutation) t))
  /\ (forall im, List.length im = n -> Permutation (reindex permutation im) im).
Proof.
  intros Ht Hn Hp. split.
  - apply (transform_rebuilt inpt t _ permutation Ht).
    apply (index_select_in_range permutation n t Hn).
    apply Forall_forall. intros i Hi.
    apply (Permutation_in _ Hp), in_seq in Hi. lia.
  - intros im Hlen. rewrite <- (reindex_seq im) at 2. rewrite Hlen.
    unfold reindex. apply Permutation_map, Hp.
Qed.

(** X14.  A whole call: when the helper reports the channel count of the
    input and [randperm] returns a permutation of that many indices, the
    call never raises and returns the input rebuilt around its channels in
    the drawn order. *)
Theorem Shuffle_forward_succeeds
    (inpt : input) (t : tensor) (n : nat) (g : rng) :
  num_channels inpt = Ok n ->
  as_tensor inpt = Some t ->
  channels_are n t = true ->
  Permutation (fst (randperm n g)) (seq 0 n) ->
  _RandomChannelShuffle.forward inpt g
  = Ok (rebuilt inpt (batch_map (reindex (fst (randperm n g))) t),
        snd (randperm n g)).
Proof.
  intros Hc Ht Hn Hp.
  unfold _RandomChannelShuffle.forward, _RandomChannelShuffle._get_params,
    bind, lift, draw.
  rewrite Hc. destruct (randperm n g) as [permutation g']. cbn [fst snd] in *.
  assert (Hr : Forall (fun i => i < n) permutation).
  { apply Forall_forall. intros i Hi.
    apply (Permutation_in _ Hp), in_seq in Hi. lia. }
  rewrite (transform_rebuilt inpt t _ permutation Ht
             (index_select_in_range permutation n t Hn Hr)).
  reflexivity.
Qed.

End ShuffleMore.

Section ShuffleMoreRuns.
Import _RandomChannelShuffle.
Import Demo.


Lemma Shuffle_transform_out_of_range_raises_witness :
  _RandomChannelShuffle._transform (IImage (mkImage rgb_pair RGB)) [0; 3; 1]
  = Raise IndexError.
Proof.
  apply (Shuffle_transform_out_of_range_raises
           (IImage (mkImage rgb_pair RGB)) rgb_pair [0; 3; 1]);
    reflexivity.
Defined.

Lemma Shuffle_transform_compose_witness :
  bind_result (_RandomChannelShuffle._transform (ITensor rgb_pair) [2; 0; 1])
    (fun out => _RandomChannelShuffle._transform out [0; 2])
  = _RandomChannelShuffle._transform (ITensor rgb_pair)
      (then_permutation [2; 0; 1] [0; 2]).
Proof.
  apply (Shuffle_transform_compose (ITensor rgb_pair) rgb_pair 3 [2; 0; 1] [0; 2]);
    try reflexivity; repeat constructor.
Defined.

Lemma Shuffle_transform_identity_witness :
  _RandomChannelShuffle._transform (IImage (mkImage rgb_pair RGB)) (seq 0 3)
  = Ok (rebuilt (IImage (mkImage rgb_pair RGB)) rgb_pair).
Proof.
  apply (Shuffle_transform_identity (IImage (mkImage rgb_pair RGB)) rgb_pair 3);
    reflexivity.
Defined.

Lemma Shuffle_transform_round_trip_witness :
  bind_result (_RandomChannelShuffle._transform (ITensor rgb_pair) [2; 0; 1])
    (fun out => _RandomChannelShuffle._transform out [1; 2; 0])
  = Ok (ITensor rgb_pair).
Proof.
  apply (Shuffle_transform_round_trip rgb_pair 3 [2; 0; 1] [1; 2; 0]);
    try reflexivity; repeat constructor.
Defined.

Lemma Shuffle_transform_keeps_channels_witness :
  _RandomChannelShuffle._transform (ITensor rgb_pair) [2; 0; 1]
  = Ok (rebuilt (ITensor rgb_pair) (batch_map (reindex [2; 0; 1]) rgb_pair))
  /\ (forall im, List.length im = 3 -> Permutation (reindex [2; 0; 1] im) im).
Proof.
  apply (Shuffle_transform_keeps_channels (ITensor rgb_pair) rgb_pair 3 [2; 0; 1]);
    try reflexivity.
  simpl. apply (perm_trans (l' := [0; 2; 1])).
  - apply perm_swap.
  - apply perm_skip, perm_swap.
Defined.

Lemma Shuffle_forward_succeeds_witness :
  _RandomChannelShuffle.forward (ITensor (One rgb_2x2)) tape_025
  = Ok (rebuilt (ITensor (One rgb_2x2))
          (batch_map (reindex (fst (randperm 3 tape_025))) (One rgb_2x2)),
        snd (randperm 3 tape_025)).
Proof.
  apply (Shuffle_forward_succeeds (ITensor (One rgb_2x2)) (One rgb_2x2) 3 tape_025);
    try reflexivity.
  apply Permutation_sym, (Permutation_rev [0; 1; 2]).
Defined.

End ShuffleMoreRuns.


(** ** [RandomPhotometricDistort]: what a call reaches *)

Section DistortInit.
Import RandomPhotometricDistort.

(** What [__init__] builds: three sub-transforms that hold a single range
    each, and the hue sub-transform. *)
Lemma Distort_init_inv
    (c_range s_range h_range b_range : float * float) (p0 : float) (self : t) :
  RandomPhotometricDistort.__init__ c_range s_range h_range b_range p0
  = Ok self ->
  exists rb rc rh rs,
    self = mk (ColorJitter.mk rb None None None)
              (ColorJitter.mk None rc None None)
              (ColorJitter.mk None None None rh)
              (ColorJitter.mk None None rs None) p0
    /\ ColorJitter._check_input (pair_value h_range) "hue" 0 (-0.5, 0.5)%float false
       = Ok rh.
Proof.
  unfold RandomPhotometricDistort.__init__, ColorJitter.__init__.
  cbv zeta.
  change (ColorJitter.check_input_default VNone ?n) with (@Ok (option ColorJitter.range) None).
  change (ColorJitter._check_input VNone ?n ?c ?b ?f) with (@Ok (option ColorJitter.range) None).
  cbn [bind_result].
  destruct (ColorJitter.check_input_default (pair_value b_range) _) as [rb | ];
    cbn [bind_result]; [ | discriminate ].
  destruct (ColorJitter.check_input_default (pair_value c_range) _) as [rc | ];
    cbn [bind_result]; [ | discriminate ].
  destruct (ColorJitter._check_input (pair_value h_range) _ _ _ _) as [rh | ] eqn:Eh;
    cbn [bind_result]; [ | discriminate ].
  destruct (ColorJitter.check_input_default (pair_value s_range) _) as [rs | ];
    cbn [bind_result]; [ | discriminate ].
  intros [= <-]. exists rb, rc, rh, rs. split; reflexivity.
Qed.

(** X15.  Construction succeeds exactly when the four ranges are ordered
    pairs inside their bounds: [(0, inf)] for brightness, contrast and
    saturation, [(-0.5, 0.5)] for hue. *)
Theorem Distort_init_succeeds_iff
    (c_range s_range h_range b_range : float * float) (p0 : float) :
  (exists self,
     RandomPhotometricDistort.__init__ c_range s_range h_range b_range p0
     = Ok self)
  <-> ColorJitter.within_bound ColorJitter.default_bound
        (fst b_range) (snd b_range) = true
      /\ ColorJitter.within_bound ColorJitter.default_bound
           (fst c_range) (snd c_range) = true
      /\ ColorJitter.within_bound (-0.5, 0.5)%float
           (fst h_range) (snd h_range) = true
      /\ ColorJitter.within_bound ColorJitter.default_bound
           (fst s_range) (snd s_range) = true.
Proof.
  unfold RandomPhotometricDistort.__init__, ColorJitter.__init__,
    ColorJitter.check_input_default, ColorJitter._check_input, pair_value,
    ColorJitter.finish.
  cbv zeta.
  destruct (ColorJitter.within_bound _ (fst b_range) _);
    destruct (ColorJitter.within_bound _ (fst c_range) _);
    destruct (ColorJitter.within_bound _ (fst h_range) _);
    destruct (ColorJitter.within_bound _ (fst s_range) _);
    cbn [negb bind_result]; split;
    try (intros [self Hs]; discriminate Hs);
    try (intros [H1 [H2 [H3 H4]]]; discriminate);
    try (intros _; eexists; reflexivity);
    try (intros _; repeat split).
Qed.

End DistortInit.

Section DistortMore.
Import RandomPhotometricDistort.
Context {C : Carriers} {K : Kernels}.

(** X16.  The [hue] range given to [RandomPhotometricDistort] is validated
    and then has no effect: two instances that differ only in it return the
    same output, and leave the generator in the same state, on every call. *)
Theorem Distort_hue_range_has_no_effect
    (c_range s_range h_range h_range' b_range : float * float) (p0 : float)
    (self self' : t) (inpt : input) (g : rng) :
  RandomPhotometricDistort.__init__ c_range s_range h_range b_range p0
  = Ok self ->
  RandomPhotometricDistort.__init__ c_range s_range h_range' b_range p0
  = Ok self' ->
  RandomPhotometricDistort.forward self inpt g
  = RandomPhotometricDistort.forward self' inpt g.
Proof.
  intros H H'.
  unfold RandomPhotometricDistort.__init__ in H, H'. cbv zeta in H, H'.
  destruct (ColorJitter.__init__ (pair_value b_range) _ _ _) as [jb | ];
    cbn [bind_result] in H, H'; [ | discriminate ].
  destruct (ColorJitter.__init__ _ (pair_value c_range) _ _) as [jc | ];
    cbn [bind_result] in H, H'; [ | discriminate ].
  destruct (ColorJitter.__init__ _ _ _ (pair_value h_range)) as [jh | ];
    cbn [bind_result] in H; [ | discriminate ].
  destruct (ColorJitter.__init__ _ _ _ (pair_value h_range')) as [jh' | ];
    cbn [bind_result] in H'; [ | discriminate ].
  destruct (ColorJitter.__init__ _ _ (pair_value s_range) _) as [js | ];
    cbn [bind_result] in H, H'; [ | discriminate ].
  injection H as <-. injection H' as <-. reflexivity.
Qed.

(** X17.  [RandomPhotometricDistort] with [p = 0] is the identity: when the
    six gate draws are not negative, a call returns its input and has
    consumed seven draws. *)
Theorem Distort_p_zero_is_identity (self : t) (inpt : input) (g : rng) :
  p self = 0%float ->
  (forall k, k < 6 -> (0 <=? fst (rand (after_draws k g)))%float = true) ->
  RandomPhotometricDistort.forward self inpt g = Ok (inpt, after_draws 7 g).
Proof.
  intros Hp H.
  pose proof (H 0 ltac:(lia)) as H0. pose proof (H 1 ltac:(lia)) as H1.
  pose proof (H 2 ltac:(lia)) as H2. pose proof (H 3 ltac:(lia)) as H3.
  pose proof (H 4 ltac:(lia)) as H4. pose proof (H 5 ltac:(lia)) as H5.
  clear H. cbn [after_draws] in *.
  unfold RandomPhotometricDistort.forward, RandomPhotometricDistort._get_params,
    bernoulli, bind, draw, ret.
  rewrite Hp.
  destruct (rand g) as [u0 g1]; cbn [fst snd] in *.
  destruct (rand g1) as [u1 g2]; cbn [fst snd] in *.
  destruct (rand g2) as [u2 g3]; cbn [fst snd] in *.
  destruct (rand g3) as [u3 g4]; cbn [fst snd] in *.
  destruct (rand g4) as [u4 g5]; cbn [fst snd] in *.
  destruct (rand g5) as [u5 g6]; cbn [fst snd] in *.
  destruct (rand g6) as [u6 g7]; cbn [fst snd] in *.
  rewrite (FloatFacts.leb_ltb_false _ _ H0), (FloatFacts.leb_ltb_false _ _ H1),
    (FloatFacts.leb_ltb_false _ _ H2), (FloatFacts.leb_ltb_false _ _ H4),
    (FloatFacts.leb_ltb_false _ _ H5).
  reflexivity.
Qed.

Lemma bind_congr {A B} (m m' : M A) (k k' : A -> M B) (g : rng) :
  m g = m' g -> (forall a g', k a g' = k' a g') -> bind m k g = bind m' k' g.
Proof.
  intros Hm Hk. unfold bind. rewrite Hm.
  destruct (m' g) as [[a g'] | e]; [ apply Hk | reflexivity ].
Qed.

Lemma fold_left_ext {A B} (f f' : A -> B -> A) (l : list B) (a : A) :
  (forall x y, f x y = f' x y) -> fold_left f l a = fold_left f' l a.
Proof.
  intros H. revert a. induction l as [ | y l IH ]; intros a; simpl.
  - reflexivity.
  - rewrite H. apply IH.
Qed.

(** A [ColorJitter] without a hue range never reaches the hue kernel. *)
Lemma jitter_forward_without_hue
    (hue_kernel : input -> float -> input) (j : ColorJitter.t)
    (inpt : input) (g : rng) :
  ColorJitter.hue j = None ->
  @ColorJitter.forward C (with_adjust_hue hue_kernel) j inpt g
  = @ColorJitter.forward C K j inpt g.
Proof.
  intros Hh. destruct j as [rb rc rs rh]. cbn [ColorJitter.hue] in Hh. subst rh.
  unfold ColorJitter.forward, ColorJitter._get_params, bind, draw, ret,
    ColorJitter.sample_factor, ColorJitter._generate_value;
    cbn [ColorJitter.brightness ColorJitter.contrast ColorJitter.saturation
         ColorJitter.hue randperm uniform_sample with_adjust_hue].
  destruct (randperm 4 g) as [idx g0].
  destruct rb as [[bl bh] | ], rc as [[cl ch] | ], rs as [[sl sh] | ];
    unfold bind, draw, ret;
    cbn [randperm uniform_sample with_adjust_hue];
    repeat match goal with
           | |- context [uniform_sample ?lo ?hi ?g1] =>
               destruct (uniform_sample lo hi g1) as [? ?]
           end;
    do 2 f_equal; unfold ColorJitter._transform; apply fold_left_ext;
    intros output [ | [ | [ | [ | i ] ] ] ]; reflexivity.
Qed.

(** X18.  No call of a [RandomPhotometricDistort] built by [__init__]
    reaches the hue kernel: replacing [adjust_hue] by any other function
    changes no result. *)
Theorem Distort_never_calls_adjust_hue
    (hue_kernel : input -> float -> input)
    (c_range s_range h_range b_range : float * float) (p0 : float)
    (self : t) (inpt : input) (params : Params) (g : rng) :
  RandomPhotometricDistort.__init__ c_range s_range h_range b_range p0
  = Ok self ->
  @RandomPhotometricDistort._transform C (with_adjust_hue hue_kernel)
    self inpt params g
  = @RandomPhotometricDistort._transform C K self inpt params g.
Proof.
  intros H. destruct (Distort_init_inv _ _ _ _ _ _ H) as [rb [rc [rh [rs [-> _]]]]].
  unfold RandomPhotometricDistort._transform;
    cbn [_brightness _contrast _saturation _hue].
  revert inpt g.
  assert (W : forall (gate : bool) (j : ColorJitter.t) inpt g,
            ColorJitter.hue j = None ->
            when gate (@ColorJitter.forward C (with_adjust_hue hue_kernel) j) inpt g
            = when gate (@ColorJitter.forward C K j) inpt g).
  { intros gate j inpt g Hj. destruct gate; [ | reflexivity ].
    apply jitter_forward_without_hue, Hj. }
  intros inpt g.
  apply bind_congr; [ apply W; reflexivity | intros inpt1 g1 ].
  apply bind_congr; [ apply W; reflexivity | intros inpt2 g2 ].
  apply bind_congr; [ apply W; reflexivity | intros inpt3 g3 ].
  apply bind_congr; [ apply W; reflexivity | intros inpt4 g4 ].
  apply bind_congr; [ apply W; reflexivity | intros inpt5 g5 ].
  apply bind_congr; [ reflexivity | intros inpt6 g6 ]. reflexivity.
Qed.





End DistortMore.

Section DistortMoreRuns.
Import RandomPhotometricDistort.
Import Demo.


Lemma Distort_hue_range_has_no_effect_witness :
  RandomPhotometricDistort.forward default_distort (journal []) tape_10
  = RandomPhotometricDistort.forward
      (mk (_brightness default_distort) (_contrast default_distort)
          (ColorJitter.mk None None None (Some (-0.5, 0.5)%float))
          (_saturation default_distort) 0.5%float)
      (journal []) tape_10.
Proof.
  apply (Distort_hue_range_has_no_effect
           (0.5, 1.5)%float (0.5, 1.5)%float (-0.05, 0.05)%float
           (-0.5, 0.5)%float (0.875, 1.125)%float 0.5%float);
    vm_compute; reflexivity.
Defined.

Lemma Distort_p_zero_is_identity_witness :
  RandomPhotometricDistort.forward
    (mk (_brightness default_distort) (_contrast default_distort)
        (_hue default_distort) (_saturation default_distort) 0%float)
    (journal []) tape_10
  = Ok (journal [], after_draws 7 tape_10).
Proof.
  apply Distort_p_zero_is_identity; [ reflexivity | ].
  intros [ | [ | [ | [ | [ | [ | k ] ] ] ] ] ] Hk;
    try (vm_compute; reflexivity).
  lia.
Defined.

Lemma Distort_never_calls_adjust_hue_witness :
  @RandomPhotometricDistort._transform carriers
    (with_adjust_hue (fun inpt _ => inpt))
    default_distort (journal [])
    (mkParams true true true true true false false) tape_10
  = RandomPhotometricDistort._transform default_distort (journal [])
      (mkParams true true true true true false false) tape_10.
Proof.
  apply (Distort_never_calls_adjust_hue (fun inpt _ => inpt)
           (0.5, 1.5)%float (0.5, 1.5)%float (-0.05, 0.05)%float
           (0.875, 1.125)%float 0.5%float).
  vm_compute. reflexivity.
Defined.


(** The same call in the journal world. *)
Example Distort_kernel_calls_journal :
  RandomPhotometricDistort._transform default_distort (journal [])
    (mkParams true true true true true false true) tape_10
  = Ok (journal [CallBrightness 1; CallContrast 0.75; CallSaturation 0.625;
                 CallSaturation 1]%float,
        skipn 4 tape_10)
  /\ kernel_schedule default_distort
       (mkParams true true true true true false true)
     = [0; 1; 2; 2].
Proof. vm_compute. split; reflexivity. Qed.

End DistortMoreRuns.
